(** * HnCalculator: happy numbers with a shared cursor and a result cache

    A shallow embedding of [HnCalculator.cpp].  Numbers are [std::uint64_t]
    in the source; here they are integers of [Z] with every wrap-around of
    the 64-bit arithmetic written out through [wrap64].  The base and the
    digit counters are [char] in the source, taken to be the signed 8-bit
    type it is on x86, and integers here: the base is meant to lie in
    [2, 127], and a counter is reduced through [wrapChar] when it is
    incremented.

    [sortDigits] allocates its counters with [new char[base]], which leaves
    them uninitialised.  What the array holds when the function starts is
    therefore an argument of [sortDigits] here, and the calculator takes the
    content of the k-th array it allocates from a function [heap] about
    which nothing is assumed.  Results that need the counters to start from
    0 say so in a hypothesis.

    The calculator object is a record of its private fields together with
    the console output it has produced; its construction flags and tunable
    fields are the variables of the section that holds the member
    functions.  Member functions that change the object take a state and
    return the new one.  Recursion and loops that the source does not bound
    take a [fuel] argument and return [None] when it runs out.  The two
    mutexes make [getNextNumber] and each cache access atomic; the
    development follows one thread of control, with whole calls of
    [isHappy] and [getNextNumber] as the steps of the object. *)

From Stdlib Require Import ZArith List Lia Permutation Sorted Bool.
From stdpp Require Import base option list sorting gmap.

Local Open Scope Z_scope.

(** ** Machine arithmetic *)

Definition UINT64_MAX : Z := 2 ^ 64 - 1.

(** Reduction of an integer to the range of [std::uint64_t]. *)
Definition wrap64 (x : Z) : Z := x mod 2 ^ 64.

(** An upper bound on the number of digits of [n] in any base from 2 up:
    the recursion and the loops over the digits of [n] below are unfolded
    this many times, which lets them run to their end
    ([digitsOf_pos], [sumOfDigitSquares_unfold]). *)
Definition depth (n : Z) : nat := S (Z.to_nat (Z.log2 n)).

(** ** Digit functions *)

Section DigitMath.

(** [const char base]. *)
Variable base : Z.

(** [sumOfDigitSquares]: [n == 0] gives 0, otherwise
    [(n%base)*(n%base) + sumOfDigitSquares(n/base)]. *)
Fixpoint sumOfDigitSquares_rec (fuel : nat) (n : Z) : Z :=
  match fuel with
  | O => 0
  | S fuel' =>
      if n =? 0 then 0
      else wrap64 (wrap64 ((n mod base) * (n mod base))
                   + sumOfDigitSquares_rec fuel' (n / base))
  end.

Definition sumOfDigitSquares (n : Z) : Z :=
  sumOfDigitSquares_rec (depth n) n.

(** [areDigitsSorted]: the [while (n > 0)] loop, with [prevDigit] as the
    loop variable that starts at [base]. *)
Fixpoint areDigitsSorted_loop (fuel : nat) (prevDigit n : Z) : bool :=
  match fuel with
  | O => true
  | S fuel' =>
      if 0 <? n then
        if prevDigit <? n mod base then false
        else areDigitsSorted_loop fuel' (n mod base) (n / base)
      else true
  end.

Definition areDigitsSorted (n : Z) : bool :=
  areDigitsSorted_loop (depth n) base n.

(** Reduction of an integer to the range of a signed [char]. *)
Definition wrapChar (x : Z) : Z := (x + 128) mod 256 - 128.

(** [sortDigits], first loop: [digits[n%base-1]++] for every digit of [n]
    that is not 0.  The array [digits] is a list indexed from 0. *)
Definition bump (digits : list Z) (d : Z) : list Z :=
  if d =? 0 then digits
  else <[Z.to_nat (d - 1) :=
           wrapChar (default 0 (digits !! Z.to_nat (d - 1)) + 1)]> digits.

Fixpoint sortDigits_count (fuel : nat) (digits : list Z) (n : Z) : list Z :=
  match fuel with
  | O => digits
  | S fuel' =>
      if n =? 0 then digits
      else sortDigits_count fuel' (bump digits (n mod base)) (n / base)
  end.

(** [sortDigits], inner loop: [count] times [result *= base; result += digit]. *)
Fixpoint sortDigits_emit (count : nat) (digit result : Z) : Z :=
  match count with
  | O => result
  | S count' =>
      sortDigits_emit count' digit (wrap64 (wrap64 (result * base) + digit))
  end.

(** [sortDigits], outer loop: [for (char digit = 1; digit < base; digit++)]. *)
Definition sortDigits_build (digits : list Z) : Z :=
  fold_left
    (fun result digit =>
       sortDigits_emit
         (Z.to_nat (default 0 (digits !! Z.to_nat (digit - 1)))) digit result)
    (seqZ 1 (base - 1)) 0.

(** [sortDigits].  [char *digits = new char[base]] does not initialise the
    array: [digits0] is what it holds when the first loop starts. *)
Definition sortDigits (digits0 : list Z) (n : Z) : Z :=
  sortDigits_build (sortDigits_count (depth n) digits0 n).

End DigitMath.

(** ** The calculator object *)

(** A line written to [std::cout]: ["<n> is[ not] happy"] or
    ["<m> numbers calculated"]. *)
Inductive event : Type :=
  | Result (n : Z) (happy : bool)
  | Milestone (m : Z).

(** The private fields of [HnCalculator], the output written so far and
    the number of arrays [sortDigits] has allocated so far. *)
Record state : Type := mkState {
  cache : gmap Z bool;
  nextNumber : Z;
  lastMilestone : Z;
  out : list event;
  allocated : nat
}.

Definition set_cache (c : gmap Z bool) (st : state) : state :=
  mkState c (nextNumber st) (lastMilestone st) (out st) (allocated st).

Definition set_nextNumber (i : Z) (st : state) : state :=
  mkState (cache st) i (lastMilestone st) (out st) (allocated st).

Definition set_lastMilestone (m : Z) (st : state) : state :=
  mkState (cache st) (nextNumber st) m (out st) (allocated st).

Definition set_allocated (k : nat) (st : state) : state :=
  mkState (cache st) (nextNumber st) (lastMilestone st) (out st) k.

(** Appends a line to the output. *)
Definition print (e : event) (st : state) : state :=
  mkState (cache st) (nextNumber st) (lastMilestone st) (out st ++ [e])
    (allocated st).

(** [std::unordered_map::emplace]: inserts only when the key is absent. *)
Definition emplace (k : Z) (v : bool) (m : gmap Z bool) : gmap Z bool :=
  match m !! k with
  | Some _ => m
  | None => <[k := v]> m
  end.

Section HnCalculator.

(** Construction flags and tunable public fields. *)
Variable cacheResults : bool.
Variable skipPermutations : bool.
Variable base : Z.
Variable stopAt : Z.
Variable outputResults : bool.
Variable milestoneInc : option Z.

(** What the heap hands out: [heap k] is the content of the k-th array that
    [new char[base]] returns to [sortDigits], counting from 0. *)
Variable heap : nat -> list Z.

(** The constructor: the cache is seeded only when results are cached. *)
Definition HnCalculator : state :=
  mkState (if cacheResults then <[4 := false]> (<[1 := true]> ∅) else ∅) 1 0 [] 0.

Definition isCached (n : Z) (st : state) : bool :=
  if negb cacheResults then false
  else bool_decide (is_Some (cache st !! n)).

Definition newResult (n : Z) (happy : bool) (st : state) : state :=
  let st1 := if outputResults then print (Result n happy) st else st in
  if cacheResults then set_cache (emplace n happy (cache st1)) st1 else st1.

(** [sortDigits] as a member function: the array it allocates is the next
    one the heap hands out. *)
Definition sortDigits_alloc (n : Z) (st : state) : Z * state :=
  (sortDigits base (heap (allocated st)) n, set_allocated (S (allocated st)) st).

(** The iterate that [isHappy] recurses on. *)
Definition childNumber (n : Z) (st : state) : Z * state :=
  let childNumber := sumOfDigitSquares base n in
  if skipPermutations then sortDigits_alloc childNumber st else (childNumber, st).

(** [isHappy]; [fuel] bounds the depth of the recursion. *)
Fixpoint isHappy (fuel : nat) (n : Z) (st : state) : option (bool * state) :=
  match fuel with
  | O => None
  | S fuel' =>
      if isCached n st then Some (default false (cache st !! n), st)
      else if n =? 1 then Some (true, st)
      else if n =? 4 then Some (false, st)
      else
        let (childNumber, st1) := childNumber n st in
        match isHappy fuel' childNumber st1 with
        | Some (happy, st') => Some (happy, newResult n happy st')
        | None => None
        end
  end.

(** The milestone test of [getNextNumber] for the number [i] handed out. *)
Definition announce (i : Z) (st : state) : state :=
  match milestoneInc with
  | Some inc =>
      if wrap64 (lastMilestone st + inc) <? i then
        let m := wrap64 (lastMilestone st + inc) in
        print (Milestone m) (set_lastMilestone m st)
      else st
  | None => st
  end.

(** The [for (i = nextNumber; true; i++)] loop of [getNextNumber];
    [fuel] bounds the number of candidates it looks at. *)
Fixpoint getNextNumber_loop (fuel : nat) (i : Z) (st : state) : option (Z * state) :=
  match fuel with
  | O => None
  | S fuel' =>
      if negb skipPermutations || areDigitsSorted base i then
        Some (i, set_nextNumber (wrap64 (i + 1)) (announce i st))
      else getNextNumber_loop fuel' (wrap64 (i + 1)) st
  end.

Definition getNextNumber (fuel : nat) (st : state) : option (Z * state) :=
  getNextNumber_loop fuel (nextNumber st) st.

(** [threadLoop] from the value [n] of its local variable.  Besides the
    final state it returns the numbers [isHappy] was called on, in order.
    [fuel] bounds the iterations of the loop and of the loops inside. *)
Fixpoint threadLoop_from (fuel : nat) (n : Z) (st : state) : option (list Z * state) :=
  match fuel with
  | O => None
  | S fuel' =>
      if n <? stopAt then
        match getNextNumber fuel' st with
        | Some (n', st1) =>
            match isHappy fuel' n' st1 with
            | Some (_, st2) =>
                match threadLoop_from fuel' n' st2 with
                | Some (called, st3) => Some (n' :: called, st3)
                | None => None
                end
            | None => None
            end
        | None => None
        end
      else Some ([], st)
  end.

Definition threadLoop (fuel : nat) (st : state) : option (list Z * state) :=
  threadLoop_from fuel 0 st.

(** [k] consecutive calls of [getNextNumber]: the numbers handed out. *)
Fixpoint pull (fuel : nat) (k : nat) (st : state) : option (list Z * state) :=
  match k with
  | O => Some ([], st)
  | S k' =>
      match getNextNumber fuel st with
      | Some (i, st1) =>
          match pull fuel k' st1 with
          | Some (l, st2) => Some (i :: l, st2)
          | None => None
          end
      | None => None
      end
  end.

End HnCalculator.

(** Reduction of an integer to the range of [std::uint16_t]. *)
Definition wrap16 (x : Z) : Z := x mod 2 ^ 16.

(** [startThreads], the loop that creates the detached threads:
    [for (std::uint16_t i = 0; i < numThreads-attachToLast; i++)].  The
    comparison is made on [int], where [numThreads-attachToLast] can be -1.
    The result is the number of threads created; [fuel] bounds the
    iterations. *)
Fixpoint startThreads_loop (fuel : nat) (numThreads : Z) (attachToLast : bool)
    (i : Z) : option nat :=
  match fuel with
  | O => None
  | S fuel' =>
      if i <? numThreads - (if attachToLast then 1 else 0) then
        match startThreads_loop fuel' numThreads attachToLast (wrap16 (i + 1)) with
        | Some detached => Some (S detached)
        | None => None
        end
      else Some 0%nat
  end.

(** [startThreads]: the number of detached threads it creates and whether
    it then runs [threadLoop] on the calling thread. *)
Definition startThreads (fuel : nat) (numThreads : Z) (attachToLast : bool)
    : option (nat * bool) :=
  match startThreads_loop fuel numThreads attachToLast 0 with
  | Some detached => Some (detached, attachToLast)
  | None => None
  end.

(** ** Notions used to state and prove the properties *)

Section DigitNotions.

Variable base : Z.

(** The digits of [n] in base [base], least significant first. *)
Fixpoint digitsOf_rec (fuel : nat) (n : Z) : list Z :=
  match fuel with
  | O => []
  | S fuel' =>
      if n =? 0 then [] else n mod base :: digitsOf_rec fuel' (n / base)
  end.

Definition digitsOf (n : Z) : list Z := digitsOf_rec (depth n) n.

(** The number whose digits, least significant first, are [ds]. *)
Definition valueOf (ds : list Z) : Z :=
  fold_right (fun d acc => d + base * acc) 0 ds.

(** The 64-bit sum of the squares of a list of digits. *)
Definition squareSum (ds : list Z) : Z :=
  fold_right (fun d acc => wrap64 (wrap64 (d * d) + acc)) 0 ds.

(** The test of [areDigitsSorted] on a list of digits, least significant
    first: no digit exceeds the one before it. *)
Fixpoint nonIncreasing (prevDigit : Z) (ds : list Z) : bool :=
  match ds with
  | [] => true
  | d :: ds' => if prevDigit <? d then false else nonIncreasing d ds'
  end.

(** The digits [sortDigits] writes, most significant first, from the
    multiplicity [count] of every digit. *)
Definition emitted (count : Z -> nat) : list Z :=
  flat_map (fun digit => repeat digit (count digit)) (seqZ 1 (base - 1)).

(** One step of the inner loop of [sortDigits]. *)
Definition shiftIn (result digit : Z) : Z :=
  wrap64 (wrap64 (result * base) + digit).

End DigitNotions.

(** ** Reference notions for the calculator *)

(** An array of [base] counters that are all 0. *)
Definition zeros (base : Z) : list Z := replicate (Z.to_nat base) 0.

(** Every array the heap hands out is zero-filled.  The source does nothing
    to make this so. *)
Definition zeroed (base : Z) (heap : nat -> list Z) : Prop :=
  forall k, heap k = zeros base.

Section Reference.

Variable cacheResults : bool.
Variable skipPermutations : bool.
Variable base : Z.
Variable outputResults : bool.
Variable milestoneInc : option Z.
Variable heap : nat -> list Z.

(** The iterate of [isHappy] when the counters of [sortDigits] start
    from 0. *)
Definition childOf (n : Z) : Z :=
  let childNumber := sumOfDigitSquares base n in
  if skipPermutations then sortDigits base (zeros base) childNumber
  else childNumber.

(** Classification without a cache and with counters that start from 0:
    follow the iterates until 1 or 4. *)
Fixpoint classify (fuel : nat) (n : Z) : option bool :=
  match fuel with
  | O => None
  | S fuel' =>
      if n =? 1 then Some true
      else if n =? 4 then Some false
      else classify fuel' (childOf n)
  end.

(** One public operation on the calculator: a call of [isHappy] or a call
    of [getNextNumber] (a worker loop is a sequence of these). *)
Inductive step : state -> state -> Prop :=
  | step_isHappy fuel n happy st st' :
      isHappy cacheResults skipPermutations base outputResults heap fuel n st
        = Some (happy, st') ->
      step st st'
  | step_getNextNumber fuel i st st' :
      getNextNumber skipPermutations base milestoneInc fuel st = Some (i, st') ->
      step st st'.

(** The states a calculator can be in after construction. *)
Definition reachable (st : state) : Prop :=
  rtc step (HnCalculator cacheResults) st.

(** Every cached result is the one classification without a cache gives. *)
Definition cache_sound (st : state) : Prop :=
  forall k v, cache st !! k = Some v -> exists fuel, classify fuel k = Some v.

(** Every result line printed so far is the one classification without a
    cache gives. *)
Definition lines_sound (st : state) : Prop :=
  forall k b, In (Result k b) (out st) -> exists fuel, classify fuel k = Some b.

End Reference.

(** An array of ten counters holding bytes left over from earlier use of
    the memory. *)
Definition leftover : list Z := [-80; 33; -65; -9; -1; 127; 0; 0; -80; 33].

(** A heap all of whose arrays are zero-filled, for base 10. *)
Definition heap_zero : nat -> list Z := fun _ => zeros 10.

(** A heap all of whose arrays hold [leftover]. *)
Definition heap_always : nat -> list Z := fun _ => leftover.

(** A heap whose first array holds [leftover] and whose later arrays are
    zero-filled. *)
Definition heap_once : nat -> list Z :=
  fun k => match k with O => leftover | S _ => zeros 10 end.

(** The numbers of the result lines in an output, in the order printed. *)
Fixpoint resultKeys (l : list event) : list Z :=
  match l with
  | [] => []
  | Result k _ :: l' => k :: resultKeys l'
  | Milestone _ :: l' => resultKeys l'
  end.

(** Two states with the same fields and the same output; they may differ
    in the number of arrays allocated. *)
Definition same_object (st1 st2 : state) : Prop :=
  cache st1 = cache st2 /\ nextNumber st1 = nextNumber st2 /\
  lastMilestone st1 = lastMilestone st2 /\ out st1 = out st2.

(** Every result line printed so far is in the cache. *)
Definition lines_cached (st : state) : Prop :=
  forall k b, In (Result k b) (out st) -> cache st !! k = Some b.

(** The number of milestones announced once [1 .. i] have been handed out
    without skipping, for the interval [inc]. *)
Definition fired (inc i : Z) : Z := Z.max 0 ((i - 1) / inc).

(** In base 10, classification of [s] without skipping and classification
    of [sortDigits s] with skipping, both with counters that start from 0,
    finish within [fuel] calls and agree. *)
Definition agree10 (fuel : nat) (s : Z) : bool :=
  match classify false 10 fuel s,
        classify true 10 fuel (sortDigits 10 (zeros 10) s) with
  | Some a, Some b => Bool.eqb a b
  | _, _ => false
  end.

(** * Properties *)

(** ** 64-bit arithmetic *)

Lemma wrap64_small x : 0 <= x < 2 ^ 64 -> wrap64 x = x.
Proof. intros H. unfold wrap64. apply Z.mod_small. exact H. Qed.

Lemma wrap64_range x : 0 <= wrap64 x < 2 ^ 64.
Proof. unfold wrap64. apply Z.mod_pos_bound. lia. Qed.

Lemma wrap64_add_l x y : wrap64 (wrap64 x + y) = wrap64 (x + y).
Proof. unfold wrap64. apply Zplus_mod_idemp_l. Qed.

Lemma wrap64_add_r x y : wrap64 (x + wrap64 y) = wrap64 (x + y).
Proof. unfold wrap64. apply Zplus_mod_idemp_r. Qed.

Lemma depth_spec n : 0 <= n -> n < 2 ^ Z.of_nat (depth n).
Proof.
  intros Hn. unfold depth.
  destruct (Z.eq_dec n 0) as [->|Hne].
  - simpl. lia.
  - rewrite Nat2Z.inj_succ, Z2Nat.id by apply Z.log2_nonneg.
    apply Z.log2_spec. lia.
Qed.

(** ** Digits of a number *)

Section DigitFacts.

Variable base : Z.
Hypothesis base_ge_2 : 2 <= base.

Lemma div_base_bound n (f : nat) :
  0 < n -> n < 2 ^ Z.of_nat (S f) -> 0 <= n / base < 2 ^ Z.of_nat f.
Proof.
  intros Hpos Hlt. split.
  - apply Z.div_pos; lia.
  - apply Z.div_lt_upper_bound; [lia|].
    rewrite Nat2Z.inj_succ, Z.pow_succ_r in Hlt by lia.
    assert (0 < 2 ^ Z.of_nat f) by (apply Z.pow_pos_nonneg; lia).
    nia.
Qed.

(** More unfoldings than digits change nothing. *)
Lemma digitsOf_rec_fuel (f1 f2 : nat) n :
  0 <= n -> n < 2 ^ Z.of_nat f1 -> n < 2 ^ Z.of_nat f2 ->
  digitsOf_rec base f1 n = digitsOf_rec base f2 n.
Proof.
  revert f2 n. induction f1 as [|f1 IH]; intros f2 n Hn H1 H2.
  - assert (n = 0) as -> by (simpl in H1; lia).
    destruct f2; reflexivity.
  - destruct f2 as [|f2].
    + assert (n = 0) as -> by (simpl in H2; lia). reflexivity.
    + simpl. destruct (Z.eqb_spec n 0) as [|Hne]; [reflexivity|].
      f_equal.
      destruct (div_base_bound n f1) as [? ?]; [lia|exact H1|].
      destruct (div_base_bound n f2) as [? ?]; [lia|exact H2|].
      apply IH; assumption.
Qed.

Lemma digitsOf_0 : digitsOf base 0 = [].
Proof. reflexivity. Qed.

Lemma digitsOf_pos n :
  0 < n -> digitsOf base n = n mod base :: digitsOf base (n / base).
Proof.
  intros Hn. unfold digitsOf at 1. unfold depth at 1. simpl.
  destruct (Z.eqb_spec n 0) as [|_]; [lia|]. f_equal.
  pose proof (depth_spec n ltac:(lia)) as Hd. unfold depth in Hd.
  assert (0 <= n / base) by (apply Z.div_pos; lia).
  apply digitsOf_rec_fuel.
  - assumption.
  - apply (div_base_bound n); [lia|exact Hd].
  - apply depth_spec. assumption.
Qed.

(** Induction along the digits of a number. *)
Lemma digit_ind (P : Z -> Prop) :
  P 0 -> (forall n, 0 < n -> P (n / base) -> P n) -> forall n, 0 <= n -> P n.
Proof.
  intros H0 Hstep. apply Zlt_0_ind. intros n IH Hn.
  destruct (Z.eq_dec n 0) as [->|Hne]; [exact H0|].
  apply Hstep; [lia|]. apply IH.
  split; [apply Z.div_pos; lia|]. apply Z.div_lt; lia.
Qed.

Lemma valueOf_digitsOf n : 0 <= n -> valueOf base (digitsOf base n) = n.
Proof.
  intros Hn. pattern n. apply digit_ind; [reflexivity| |exact Hn].
  clear n Hn. intros n Hn IH.
  rewrite digitsOf_pos by exact Hn. simpl. rewrite IH.
  pose proof (Z.div_mod n base ltac:(lia)). lia.
Qed.

Lemma digitsOf_range n :
  0 <= n -> Forall (fun d => 0 <= d < base) (digitsOf base n).
Proof.
  intros Hn. pattern n. apply digit_ind; [constructor| |exact Hn].
  clear n Hn. intros n Hn IH.
  rewrite digitsOf_pos by exact Hn. constructor; [|exact IH].
  apply Z.mod_pos_bound. lia.
Qed.

Lemma valueOf_nonneg ds : Forall (fun d => 0 <= d) ds -> 0 <= valueOf base ds.
Proof.
  induction 1 as [|d ds Hd _ IH]; simpl; [lia|]. nia.
Qed.

Lemma valueOf_app l1 l2 :
  valueOf base (l1 ++ l2)
  = valueOf base l1 + base ^ Z.of_nat (length l1) * valueOf base l2.
Proof.
  induction l1 as [|d l1 IH].
  - simpl. lia.
  - cbn [app valueOf fold_right length]. fold (valueOf base (l1 ++ l2)).
    fold (valueOf base l1). rewrite IH, Nat2Z.inj_succ, Z.pow_succ_r by lia. ring.
Qed.

(** A list of digits none of which is 0 is the digit list of its value. *)
Lemma digitsOf_valueOf ds :
  Forall (fun d => 1 <= d < base) ds -> digitsOf base (valueOf base ds) = ds.
Proof.
  induction 1 as [|d ds Hd Hds IH]; [reflexivity|].
  assert (0 <= valueOf base ds).
  { apply valueOf_nonneg. eapply Forall_impl; [exact Hds|]. simpl. lia. }
  cbn [valueOf fold_right]. fold (valueOf base ds).
  rewrite digitsOf_pos by nia.
  replace (d + base * valueOf base ds) with (d + valueOf base ds * base) by ring.
  rewrite Z.mod_add, Z.div_add by lia.
  rewrite Z.mod_small, Z.div_small by lia.
  rewrite Z.add_0_l, IH. reflexivity.
Qed.

(** *** The source functions in terms of the digit list *)

Lemma sumOfDigitSquares_rec_digits (fuel : nat) n :
  sumOfDigitSquares_rec base fuel n = squareSum (digitsOf_rec base fuel n).
Proof.
  revert n. induction fuel as [|fuel IH]; intros n; simpl; [reflexivity|].
  destruct (n =? 0); simpl; [reflexivity|]. rewrite IH. reflexivity.
Qed.

Lemma sumOfDigitSquares_digits n :
  sumOfDigitSquares base n = squareSum (digitsOf base n).
Proof. apply sumOfDigitSquares_rec_digits. Qed.

Lemma areDigitsSorted_loop_digits (fuel : nat) prevDigit n :
  0 <= n ->
  areDigitsSorted_loop base fuel prevDigit n
  = nonIncreasing prevDigit (digitsOf_rec base fuel n).
Proof.
  revert prevDigit n. induction fuel as [|fuel IH]; intros p n Hn; simpl; [reflexivity|].
  destruct (Z.ltb_spec 0 n), (Z.eqb_spec n 0); try lia; simpl; [|reflexivity].
  destruct (p <? n mod base); [reflexivity|].
  apply IH. apply Z.div_pos; lia.
Qed.

Lemma areDigitsSorted_digits n :
  0 <= n -> areDigitsSorted base n = nonIncreasing base (digitsOf base n).
Proof. apply areDigitsSorted_loop_digits. Qed.

Lemma sortDigits_count_digits (fuel : nat) digits n :
  sortDigits_count base fuel digits n
  = fold_left bump (digitsOf_rec base fuel n) digits.
Proof.
  revert digits n. induction fuel as [|fuel IH]; intros h n; simpl; [reflexivity|].
  destruct (n =? 0); simpl; [reflexivity|]. apply IH.
Qed.

Lemma sortDigits_emit_repeat (count : nat) digit result :
  sortDigits_emit base count digit result
  = fold_left (shiftIn base) (repeat digit count) result.
Proof.
  revert result. induction count as [|count IH]; intros r; simpl; [reflexivity|].
  apply IH.
Qed.

Lemma fold_left_flat_map {A B C} (f : A -> C -> A) (g : B -> list C) l a :
  fold_left f (flat_map g l) a = fold_left (fun a x => fold_left f (g x) a) l a.
Proof.
  revert a. induction l as [|x l IH]; intros a; simpl; [reflexivity|].
  rewrite fold_left_app. apply IH.
Qed.

Lemma fold_left_pointwise {A B} (f g : A -> B -> A) l a :
  (forall a x, f a x = g a x) -> fold_left f l a = fold_left g l a.
Proof.
  intros Hfg. revert a. induction l as [|x l IH]; intros a; simpl; [reflexivity|].
  rewrite Hfg. apply IH.
Qed.

Lemma sortDigits_build_emitted digits :
  sortDigits_build base digits
  = fold_left (shiftIn base)
      (emitted base (fun digit =>
         Z.to_nat (default 0 (digits !! Z.to_nat (digit - 1))))) 0.
Proof.
  unfold sortDigits_build, emitted. rewrite fold_left_flat_map.
  apply fold_left_pointwise. intros r d. apply sortDigits_emit_repeat.
Qed.

(** *** The counters after the first loop of [sortDigits] *)

Lemma bump_length digits d : length (bump digits d) = length digits.
Proof. unfold bump. destruct (d =? 0); [reflexivity|]. apply length_insert. Qed.

Lemma bump_lookup digits d (k : nat) :
  0 <= d -> d - 1 < Z.of_nat (length digits) ->
  default 0 (bump digits d !! k)
  = if Z.eq_dec d (Z.of_nat k + 1) then wrapChar (default 0 (digits !! k) + 1)
    else default 0 (digits !! k).
Proof.
  intros Hd Hlen. unfold bump.
  destruct (Z.eqb_spec d 0) as [->|Hne].
  - destruct (Z.eq_dec 0 (Z.of_nat k + 1)); [lia|reflexivity].
  - destruct (Z.eq_dec d (Z.of_nat k + 1)) as [->|Hdk].
    + replace (Z.to_nat (Z.of_nat k + 1 - 1)) with k by lia.
      rewrite list_lookup_insert_eq by lia. reflexivity.
    + rewrite list_lookup_insert_ne by lia. reflexivity.
Qed.

(** A counter after the first loop: it has been incremented once for every
    occurrence of its digit, whatever it held at the start. *)
Lemma counters_lookup ds digits (k : nat) :
  Forall (fun d => 0 <= d /\ d - 1 < Z.of_nat (length digits)) ds ->
  default 0 (fold_left bump ds digits !! k)
  = Nat.iter (count_occ Z.eq_dec ds (Z.of_nat k + 1))
      (fun x => wrapChar (x + 1)) (default 0 (digits !! k)).
Proof.
  revert digits. induction ds as [|d ds IH]; intros h Hds; simpl; [reflexivity|].
  apply Forall_cons in Hds as [[Hd Hlen] Hds].
  rewrite IH by (rewrite bump_length; exact Hds).
  rewrite bump_lookup by assumption.
  destruct (Z.eq_dec d (Z.of_nat k + 1)); [|reflexivity].
  simpl. apply (Nat.iter_swap _ _ (fun x => wrapChar (x + 1))).
Qed.

Lemma wrapChar_small x : -128 <= x <= 127 -> wrapChar x = x.
Proof. intros Hx. unfold wrapChar. rewrite Z.mod_small; lia. Qed.

Lemma wrapChar_range x : -128 <= wrapChar x <= 127.
Proof. unfold wrapChar. pose proof (Z.mod_pos_bound (x + 128) 256). lia. Qed.

Lemma count_up (c : nat) x :
  -128 <= x -> x + Z.of_nat c <= 127 ->
  Nat.iter c (fun x => wrapChar (x + 1)) x = x + Z.of_nat c.
Proof.
  induction c as [|c IH]; intros Hx Hc; simpl; [lia|].
  rewrite IH by lia. rewrite wrapChar_small; lia.
Qed.

End DigitFacts.

Lemma digitsOf_length base n (k : nat) :
  2 <= base -> 0 <= n < base ^ Z.of_nat k -> (length (digitsOf base n) <= k)%nat.
Proof.
  intros Hb. revert n. induction k as [|k IH]; intros n Hn.
  - assert (n = 0) as -> by (simpl in Hn; lia). simpl. lia.
  - destruct (Z.eq_dec n 0) as [->|Hne]; [simpl; lia|].
    rewrite digitsOf_pos by lia. simpl.
    apply le_n_S, IH. split; [apply Z.div_pos; lia|].
    apply Z.div_lt_upper_bound; [lia|].
    rewrite Nat2Z.inj_succ, Z.pow_succ_r in Hn by lia. lia.
Qed.

Lemma digitsOf_length_64 base n :
  2 <= base -> 0 <= n < 2 ^ 64 -> (length (digitsOf base n) <= 64)%nat.
Proof.
  intros Hb Hn. apply digitsOf_length; [exact Hb|]. split; [lia|].
  apply Z.lt_le_trans with (2 ^ 64); [lia|].
  apply Z.pow_le_mono_l. lia.
Qed.

Section Counters.

Variable base : Z.
Hypothesis base_ge_2 : 2 <= base.

(** Started on zeros, the counter of a digit from 1 up is the number of
    times the digit occurs in the 64-bit number [n]. *)
Lemma counters_count n digit :
  0 <= n < 2 ^ 64 -> 1 <= digit ->
  Z.to_nat (default 0
    (sortDigits_count base (depth n) (zeros base) n !! Z.to_nat (digit - 1)))
  = count_occ Z.eq_dec (digitsOf base n) digit.
Proof.
  intros Hn Hd. rewrite sortDigits_count_digits. fold (digitsOf base n).
  rewrite counters_lookup.
  - replace (Z.of_nat (Z.to_nat (digit - 1)) + 1) with digit by lia.
    pose proof (count_occ_bound Z.eq_dec digit (digitsOf base n)) as Hc.
    pose proof (digitsOf_length_64 base n base_ge_2 Hn) as Hl.
    assert (default 0 (zeros base !! Z.to_nat (digit - 1)) = 0) as ->.
    { unfold zeros.
      destruct (replicate (Z.to_nat base) 0 !! Z.to_nat (digit - 1)) as [x|] eqn:E.
      - apply lookup_replicate in E as [-> _]. reflexivity.
      - reflexivity. }
    rewrite count_up by lia. lia.
  - eapply Forall_impl; [apply digitsOf_range; [exact base_ge_2|lia]|].
    simpl. intros d Hrange. unfold zeros. rewrite length_replicate. lia.
Qed.

(** The counters in the same positions after the first loop agree for two
    numbers with the same digits other than 0, whatever the array held at
    the start. *)
Lemma counters_same_digits digits0 n m digit :
  0 <= n -> 0 <= m -> 1 <= digit < base ->
  length digits0 = Z.to_nat base ->
  (forall d, d <> 0 ->
     count_occ Z.eq_dec (digitsOf base n) d = count_occ Z.eq_dec (digitsOf base m) d) ->
  default 0 (sortDigits_count base (depth n) digits0 n !! Z.to_nat (digit - 1))
  = default 0 (sortDigits_count base (depth m) digits0 m !! Z.to_nat (digit - 1)).
Proof.
  intros Hn Hm Hd Hlen Hc. rewrite !sortDigits_count_digits.
  fold (digitsOf base n). fold (digitsOf base m).
  rewrite !counters_lookup.
  - replace (Z.of_nat (Z.to_nat (digit - 1)) + 1) with digit by lia.
    rewrite Hc by lia. reflexivity.
  - eapply Forall_impl; [apply digitsOf_range; [exact base_ge_2|lia]|].
    simpl. intros d Hrange. lia.
  - eapply Forall_impl; [apply digitsOf_range; [exact base_ge_2|lia]|].
    simpl. intros d Hrange. lia.
Qed.

End Counters.

(** ** Counting sort of the digits *)

Lemma StronglySorted_rev_flip {A} (R : relation A) l :
  StronglySorted R l -> StronglySorted (flip R) (rev l).
Proof.
  induction 1 as [|x l _ IH Hx]; simpl; [constructor|].
  apply StronglySorted_app_2; [|exact IH|repeat constructor].
  intros x1 x2 H1 H2. apply list_elem_of_singleton in H2 as ->.
  rewrite Forall_forall in Hx. apply Hx.
  apply list_elem_of_In, in_rev, list_elem_of_In. exact H1.
Qed.

Lemma StronglySorted_seqZ m len : StronglySorted Z.lt (seqZ m len).
Proof.
  destruct (Z.le_gt_cases len 0) as [Hle|Hgt].
  { rewrite seqZ_nil by exact Hle. constructor. }
  rewrite <- (Z2Nat.id len) by lia. clear Hgt.
  generalize (Z.to_nat len) as k. intros k. revert m.
  induction k as [|k IH]; intros m.
  - rewrite seqZ_nil by lia. constructor.
  - rewrite seqZ_cons by lia.
    replace (Z.pred (Z.of_nat (S k))) with (Z.of_nat k) by lia.
    constructor; [apply IH|].
    apply Forall_seqZ. lia.
Qed.

Section CountingSort.

Variable base : Z.
Variable count : Z -> nat.

Lemma emitted_In x : In x (emitted base count) -> 1 <= x < base.
Proof.
  unfold emitted. rewrite in_flat_map. intros (d & Hd & Hx).
  apply repeat_spec in Hx as ->.
  apply list_elem_of_In, elem_of_seqZ in Hd. lia.
Qed.

Lemma flat_repeat_sorted l :
  StronglySorted Z.lt l ->
  StronglySorted Z.le (flat_map (fun digit => repeat digit (count digit)) l).
Proof.
  induction 1 as [|d l _ IH Hd]; simpl; [constructor|].
  apply StronglySorted_app_2; [| |exact IH].
  - intros x1 x2 H1 H2.
    apply list_elem_of_In, repeat_spec in H1 as ->.
    apply list_elem_of_In, in_flat_map in H2 as (d' & Hd' & H2).
    apply repeat_spec in H2 as ->.
    rewrite Forall_forall in Hd. apply list_elem_of_In, Hd in Hd'. lia.
  - generalize (count d) as c. intros c.
    induction c as [|c IHc]; simpl; constructor; [exact IHc|].
    apply Forall_forall. intros y Hy.
    apply list_elem_of_In, repeat_spec in Hy as ->. lia.
Qed.

Lemma emitted_sorted : StronglySorted Z.le (emitted base count).
Proof. apply flat_repeat_sorted, StronglySorted_seqZ. Qed.

Lemma count_occ_flat_repeat l x :
  NoDup l ->
  count_occ Z.eq_dec (flat_map (fun digit => repeat digit (count digit)) l) x
  = if decide (x ∈ l) then count x else 0%nat.
Proof.
  induction 1 as [|d l Hd _ IH]; simpl.
  - destruct (decide (x ∈ [])) as [Hin|]; [|reflexivity]. inversion Hin.
  - rewrite count_occ_app, IH.
    destruct (Z.eq_dec x d) as [->|Hne].
    + rewrite count_occ_repeat_eq by reflexivity.
      destruct (decide (d ∈ l)); [contradiction|].
      destruct (decide (d ∈ d :: l)) as [|Hn]; [lia|].
      exfalso. apply Hn. constructor.
    + rewrite count_occ_repeat_neq by exact Hne.
      destruct (decide (x ∈ l)) as [Hin|Hnin], (decide (x ∈ d :: l)) as [Hin'|Hnin'];
        try reflexivity.
      * exfalso. apply Hnin'. constructor. exact Hin.
      * exfalso. apply elem_of_cons in Hin' as [?|?]; contradiction.
Qed.

Lemma count_occ_emitted x :
  count_occ Z.eq_dec (emitted base count) x
  = if decide (1 <= x < base) then count x else 0%nat.
Proof.
  unfold emitted. rewrite count_occ_flat_repeat by apply NoDup_seqZ.
  destruct (decide (x ∈ seqZ 1 (base - 1))) as [Hin|Hnin];
    rewrite elem_of_seqZ in *; destruct (decide (1 <= x < base)); lia.
Qed.

End CountingSort.

Lemma emitted_ext base (c1 c2 : Z -> nat) :
  (forall d, 1 <= d < base -> c1 d = c2 d) -> emitted base c1 = emitted base c2.
Proof.
  intros Hc. unfold emitted.
  assert (Forall (fun d => 1 <= d < base) (seqZ 1 (base - 1))) as Hall.
  { apply Forall_seqZ. lia. }
  induction Hall as [|d l Hd _ IH]; simpl; [reflexivity|].
  rewrite Hc by exact Hd. rewrite IH. reflexivity.
Qed.

Lemma count_occ_filter_nonzero (ds : list Z) x :
  count_occ Z.eq_dec (filter (fun d => d <> 0) ds) x
  = if Z.eq_dec x 0 then 0%nat else count_occ Z.eq_dec ds x.
Proof.
  induction ds as [|d ds IH]; simpl.
  - destruct (Z.eq_dec x 0); reflexivity.
  - destruct (decide (d <> 0)) as [Hd|Hd].
    + rewrite filter_cons_True by exact Hd. simpl. rewrite IH.
      destruct (Z.eq_dec d x), (Z.eq_dec x 0); congruence.
    + rewrite filter_cons_False by exact Hd. rewrite IH.
      destruct (Z.eq_dec d x), (Z.eq_dec x 0); try congruence. lia.
Qed.

(** The emitted digits are the digits other than 0, rearranged. *)
Lemma emitted_permutation base (ds : list Z) :
  Forall (fun d => 0 <= d < base) ds ->
  emitted base (count_occ Z.eq_dec ds) ≡ₚ filter (fun d => d <> 0) ds.
Proof.
  intros Hds. apply (Permutation_count_occ Z.eq_dec). intros x.
  rewrite count_occ_emitted, count_occ_filter_nonzero.
  destruct (decide (1 <= x < base)) as [Hx|Hx], (Z.eq_dec x 0) as [->|Hx0];
    try reflexivity; try lia.
  symmetry. apply count_occ_not_In. intros Hin.
  rewrite Forall_forall in Hds. apply list_elem_of_In, Hds in Hin. lia.
Qed.

(** ** The value of a rearranged digit list *)

Section Rearrangement.

Variable base : Z.
Hypothesis base_ge_2 : 2 <= base.

Lemma valueOf_max_bound r (l : list Z) :
  Forall (fun d => 0 <= d <= r) l ->
  (base - 1) * valueOf base l <= r * (base ^ Z.of_nat (length l) - 1).
Proof.
  induction 1 as [|d l Hd _ IH].
  - simpl. lia.
  - cbn [valueOf fold_right length]. fold (valueOf base l).
    rewrite Nat2Z.inj_succ, Z.pow_succ_r by lia.
    assert (0 < base ^ Z.of_nat (length l)) by (apply Z.pow_pos_nonneg; lia).
    nia.
Qed.

(** Moving the largest digit to the least significant place does not
    increase the value. *)
Lemma valueOf_largest_first r (l1 l2 : list Z) :
  Forall (fun d => 0 <= d <= r) l1 ->
  valueOf base (r :: l1 ++ l2) <= valueOf base (l1 ++ r :: l2).
Proof.
  intros H1. pose proof (valueOf_max_bound r l1 H1) as Hb.
  cbn [valueOf fold_right]. fold (valueOf base (l1 ++ l2)).
  rewrite !valueOf_app.
  cbn [valueOf fold_right]. fold (valueOf base l2).
  nia.
Qed.

Lemma descending_minimal (ds l : list Z) :
  StronglySorted (flip Z.le) ds -> ds ≡ₚ l -> Forall (fun d => 0 <= d) l ->
  valueOf base ds <= valueOf base l.
Proof.
  intros Hs. revert l. induction Hs as [|r ds Hs IH Hr]; intros l Hp Hl.
  - apply Permutation_nil in Hp as ->. simpl. lia.
  - assert (In r l) as Hin by (eapply Permutation_in; [exact Hp|left; reflexivity]).
    apply in_split in Hin as (l1 & l2 & ->).
    apply Permutation_cons_app_inv in Hp as Hp'.
    assert (Forall (fun d => 0 <= d <= r) l1) as H1.
    { apply Forall_forall. intros d Hd. split.
      - rewrite Forall_forall in Hl. apply Hl. apply elem_of_app. left. exact Hd.
      - assert (d ∈ r :: ds) as Hd'.
        { rewrite Hp. apply elem_of_app. left. exact Hd. }
        apply elem_of_cons in Hd' as [->|Hd']; [lia|].
        rewrite Forall_forall in Hr. apply Hr in Hd'. exact Hd'. }
    etransitivity; [|apply valueOf_largest_first; exact H1].
    cbn [valueOf fold_right]. fold (valueOf base ds). fold (valueOf base (l1 ++ l2)).
    assert (valueOf base ds <= valueOf base (l1 ++ l2)).
    { apply IH; [exact Hp'|].
      apply Forall_app in Hl as [Hl1 Hl2]. apply Forall_cons in Hl2 as [_ Hl2].
      apply Forall_app. split; assumption. }
    nia.
Qed.

Lemma valueOf_filter_nonzero (ds : list Z) :
  Forall (fun d => 0 <= d) ds ->
  valueOf base (filter (fun d => d <> 0) ds) <= valueOf base ds.
Proof.
  induction 1 as [|d ds Hd Hds IH]; [reflexivity|].
  pose proof (valueOf_nonneg base base_ge_2 ds Hds).
  destruct (decide (d <> 0)) as [Hne|He].
  - rewrite filter_cons_True by exact Hne.
    cbn [valueOf fold_right]. fold (valueOf base ds).
    fold (valueOf base (filter (fun d => d <> 0) ds)). nia.
  - rewrite filter_cons_False by exact He.
    cbn [valueOf fold_right]. fold (valueOf base ds). nia.
Qed.

(** The inner loop of [sortDigits] does not wrap around as long as the
    number written so far fits 64 bits. *)
Lemma fold_shiftIn_valueOf (ds : list Z) :
  Forall (fun d => 0 <= d) ds -> valueOf base (rev ds) < 2 ^ 64 ->
  fold_left (shiftIn base) ds 0 = valueOf base (rev ds).
Proof.
  induction ds as [|d ds IH] using rev_ind; intros Hds Hlt; [reflexivity|].
  apply Forall_app in Hds as [Hds Hd]. apply Forall_cons in Hd as [Hd _].
  rewrite rev_app_distr in *. cbn [rev app valueOf fold_right] in *.
  fold (valueOf base (rev ds)) in *.
  assert (0 <= valueOf base (rev ds)) as Hv.
  { apply valueOf_nonneg; [exact base_ge_2|].
    apply Forall_forall. intros x Hx. rewrite Forall_forall in Hds. apply Hds.
    apply list_elem_of_In, in_rev, list_elem_of_In in Hx. exact Hx. }
  rewrite fold_left_app. simpl. rewrite IH by (assumption || nia).
  unfold shiftIn. rewrite (wrap64_small (_ * _)) by nia.
  rewrite wrap64_small by nia. ring.
Qed.

(** *** What [sortDigits] returns *)

(** The digits of [sortDigits n], least significant first, when the
    counters start from 0. *)
Lemma sortDigits_digits n :
  0 <= n < 2 ^ 64 ->
  let ds := rev (emitted base (count_occ Z.eq_dec (digitsOf base n))) in
  sortDigits base (zeros base) n = valueOf base ds /\
  digitsOf base (sortDigits base (zeros base) n) = ds /\
  ds ≡ₚ filter (fun d => d <> 0) (digitsOf base n) /\
  StronglySorted (flip Z.le) ds /\
  Forall (fun d => 1 <= d < base) ds /\
  valueOf base ds <= n.
Proof.
  intros Hn ds.
  pose proof (digitsOf_range base base_ge_2 n ltac:(lia)) as Hrange.
  assert (ds ≡ₚ filter (fun d => d <> 0) (digitsOf base n)) as Hperm.
  { unfold ds. rewrite <- Permutation_rev. apply emitted_permutation. exact Hrange. }
  assert (Forall (fun d => 1 <= d < base) ds) as Hds.
  { apply Forall_forall. intros d Hd. unfold ds in Hd.
    apply list_elem_of_In, in_rev in Hd. eapply emitted_In. exact Hd. }
  assert (StronglySorted (flip Z.le) ds) as Hsorted.
  { apply StronglySorted_rev_flip, emitted_sorted. }
  assert (Forall (fun d => 0 <= d) (digitsOf base n)) as Hnonneg.
  { eapply Forall_impl; [exact Hrange|]. simpl. lia. }
  assert (valueOf base ds <= n) as Hle.
  { pose proof (valueOf_digitsOf base base_ge_2 n ltac:(lia)) as Hn'.
    apply Z.le_trans with (valueOf base (digitsOf base n)); [|lia].
    etransitivity; [|apply valueOf_filter_nonzero; exact Hnonneg].
    apply descending_minimal; [exact Hsorted|exact Hperm|].
    apply Forall_forall. intros d Hd. apply list_elem_of_filter in Hd as [_ Hd].
    rewrite Forall_forall in Hnonneg. apply Hnonneg. exact Hd. }
  assert (sortDigits base (zeros base) n = valueOf base ds) as Hval.
  { unfold sortDigits, zeros. rewrite sortDigits_build_emitted.
    rewrite (emitted_ext base _ (count_occ Z.eq_dec (digitsOf base n))).
    - apply fold_shiftIn_valueOf; [|fold ds; lia].
      apply Forall_forall. intros d Hd.
      apply list_elem_of_In, emitted_In in Hd. lia.
    - intros d Hd. apply counters_count; [exact base_ge_2|lia|lia]. }
  repeat split; try assumption.
  rewrite Hval. apply digitsOf_valueOf; assumption.
Qed.

End Rearrangement.

(** ** Canonicalisation: [sortDigits] against the other digit functions *)

(** The recursion of the source: [sumOfDigitSquares] of a number other than
    0 is the square of its last digit plus [sumOfDigitSquares] of the rest. *)
Lemma sumOfDigitSquares_unfold base n :
  2 <= base -> 0 < n ->
  sumOfDigitSquares base n
  = wrap64 (wrap64 ((n mod base) * (n mod base)) + sumOfDigitSquares base (n / base)).
Proof.
  intros Hb Hn. rewrite !sumOfDigitSquares_digits.
  rewrite (digitsOf_pos base Hb n Hn). reflexivity.
Qed.

Lemma squareSum_plain (ds : list Z) :
  squareSum ds = wrap64 (fold_right (fun d acc => d * d + acc) 0 ds).
Proof.
  induction ds as [|d ds IH]; [reflexivity|].
  simpl. rewrite IH, wrap64_add_l, wrap64_add_r. reflexivity.
Qed.

Lemma squareSum_permutation (l1 l2 : list Z) :
  l1 ≡ₚ l2 -> squareSum l1 = squareSum l2.
Proof.
  intros Hp. rewrite !squareSum_plain. f_equal.
  induction Hp; simpl; lia.
Qed.

Lemma squareSum_filter_nonzero (ds : list Z) :
  squareSum (filter (fun d => d <> 0) ds) = squareSum ds.
Proof.
  rewrite !squareSum_plain. f_equal.
  induction ds as [|d ds IH]; [reflexivity|].
  destruct (decide (d <> 0)) as [Hne|He].
  - rewrite filter_cons_True by exact Hne. simpl. lia.
  - rewrite filter_cons_False by exact He. simpl. lia.
Qed.

Lemma nonIncreasing_descending prevDigit (ds : list Z) :
  StronglySorted (flip Z.le) ds -> Forall (fun d => d <= prevDigit) ds ->
  nonIncreasing prevDigit ds = true.
Proof.
  intros Hs. revert prevDigit.
  induction Hs as [|d ds _ IH Hd]; intros p Hp; [reflexivity|].
  apply Forall_cons in Hp as [Hdp _]. simpl.
  destruct (Z.ltb_spec p d); [lia|]. apply IH. exact Hd.
Qed.

(** C3 fails in the code, which leaves the counters uninitialised: in
    base 10, when the array holds the bytes of [leftover], [sortDigits 100]
    is 12297829382473034410, whose squared digits sum to 481 and not to 1 as
    those of 100 do, and whose digits do not pass [areDigitsSorted]. *)
Theorem sortDigits_uninitialised :
  sortDigits 10 leftover 100 = 12297829382473034410 /\
  sumOfDigitSquares 10 (sortDigits 10 leftover 100) = 481 /\
  sumOfDigitSquares 10 100 = 1 /\
  areDigitsSorted 10 (sortDigits 10 leftover 100) = false.
Proof. repeat split; vm_compute; reflexivity. Qed.

(** C4, as the code has it when the counters start from 0: for every base
    from 2 up and every 64-bit number [n], the digits of [sortDigits n] are
    the digits of [n] other than 0, rearranged; every occurrence of the
    digit 0 is dropped. *)
Theorem sortDigits_nonzero_digits (base n : Z) (digits0 : list Z) :
  2 <= base -> 0 <= n < 2 ^ 64 -> digits0 = zeros base ->
  digitsOf base (sortDigits base digits0 n)
  ≡ₚ filter (fun d => d <> 0) (digitsOf base n).
Proof.
  intros Hb Hn ->.
  destruct (sortDigits_digits base Hb n Hn) as (_ & Hdig & Hperm & _).
  rewrite Hdig. exact Hperm.
Qed.

Lemma sortDigits_nonzero_digits_witness :
  2 <= 10 /\ 0 <= 3020 < 2 ^ 64 /\
  [0; 0; 0; 0; 0; 0; 0; 0; 0; 0] = zeros 10 /\
  digitsOf 10 (sortDigits 10 [0; 0; 0; 0; 0; 0; 0; 0; 0; 0] 3020)
  ≡ₚ filter (fun d => d <> 0) (digitsOf 10 3020).
Proof.
  split; [lia|]. split; [lia|]. split; [reflexivity|].
  apply (sortDigits_nonzero_digits 10 3020); [lia|lia|reflexivity].
Defined.

(** C4, as stated, fails also when the counters start from 0: in base 10
    the number 10 has the digits 0 and 1, and [sortDigits] returns 1, which
    has one digit. *)
Lemma sortDigits_drops_zero :
  sortDigits 10 (zeros 10) 10 = 1 /\
  digitsOf 10 10 = [0; 1] /\
  digitsOf 10 (sortDigits 10 (zeros 10) 10) = [1] /\
  ~ (digitsOf 10 (sortDigits 10 (zeros 10) 10) ≡ₚ digitsOf 10 10).
Proof.
  repeat split; try reflexivity.
  intros Hp. apply Permutation_length in Hp. vm_compute in Hp. discriminate Hp.
Qed.

(** C10 fails in the code, which leaves the counters uninitialised: in
    base 10, when the array holds the bytes of [leftover], [sortDigits]
    returns 12297829382473034410 on 100 and on 0. *)
Theorem sortDigits_exceeds :
  sortDigits 10 leftover 100 = 12297829382473034410 /\
  100 < sortDigits 10 leftover 100 /\
  0 < sortDigits 10 leftover 0.
Proof. repeat split; vm_compute; reflexivity. Qed.

(** ** Classification *)

Section Classification.

Variable cacheResults : bool.
Variable skipPermutations : bool.
Variable base : Z.
Variable outputResults : bool.
Variable milestoneInc : option Z.
Variable heap : nat -> list Z.

Local Abbreviation isHappy' :=
  (isHappy cacheResults skipPermutations base outputResults heap).
Local Abbreviation childNumber' := (childNumber skipPermutations base heap).
Local Abbreviation newResult' := (newResult cacheResults outputResults).
Local Abbreviation classify' := (classify skipPermutations base).
Local Abbreviation step' :=
  (step cacheResults skipPermutations base outputResults milestoneInc heap).
Local Abbreviation reachable' :=
  (reachable cacheResults skipPermutations base outputResults milestoneInc heap).
Local Abbreviation cache_sound' := (cache_sound skipPermutations base).

Lemma emplace_lookup k v (m : gmap Z bool) j :
  emplace k v m !! j
  = match m !! j with Some w => Some w | None => if decide (k = j) then Some v else None end.
Proof.
  unfold emplace. destruct (m !! k) as [w|] eqn:Ek.
  - destruct (m !! j) as [w'|] eqn:Ej; [reflexivity|].
    destruct (decide (k = j)) as [->|]; [congruence|reflexivity].
  - rewrite lookup_insert. destruct (decide (k = j)) as [->|].
    + rewrite Ek. reflexivity.
    + destruct (m !! j); reflexivity.
Qed.

Lemma cache_newResult n happy st :
  cache (newResult' n happy st)
  = if cacheResults then emplace n happy (cache st) else cache st.
Proof.
  unfold newResult. destruct outputResults, cacheResults; reflexivity.
Qed.

Lemma isCached_true n st :
  isCached cacheResults n st = true ->
  cacheResults = true /\ cache st !! n = Some (default false (cache st !! n)).
Proof.
  unfold isCached. destruct cacheResults; simpl; [|discriminate].
  intros H. apply bool_decide_eq_true in H as [v Hv]. rewrite Hv. auto.
Qed.

Lemma isCached_false n st :
  isCached cacheResults n st = false -> cacheResults = true -> cache st !! n = None.
Proof.
  unfold isCached. intros H ->. simpl in H.
  apply bool_decide_eq_false in H. destruct (cache st !! n); [|reflexivity].
  exfalso. apply H. eauto.
Qed.

(** Computing the iterate touches nothing but the count of arrays. *)
Lemma childNumber_cache n st : cache (snd (childNumber' n st)) = cache st.
Proof. unfold childNumber. destruct skipPermutations; reflexivity. Qed.

Lemma childNumber_out n st : out (snd (childNumber' n st)) = out st.
Proof. unfold childNumber. destruct skipPermutations; reflexivity. Qed.

Lemma childNumber_nextNumber n st :
  nextNumber (snd (childNumber' n st)) = nextNumber st.
Proof. unfold childNumber. destruct skipPermutations; reflexivity. Qed.

Lemma childNumber_lastMilestone n st :
  lastMilestone (snd (childNumber' n st)) = lastMilestone st.
Proof. unfold childNumber. destruct skipPermutations; reflexivity. Qed.

Lemma childNumber_noskip n st :
  skipPermutations = false ->
  childNumber' n st = (sumOfDigitSquares base n, st).
Proof. intros Hs. unfold childNumber. rewrite Hs. reflexivity. Qed.

(** The cases of one call of [isHappy]. *)
Lemma isHappy_cases (fuel : nat) n st happy st' :
  isHappy' (S fuel) n st = Some (happy, st') ->
  (isCached cacheResults n st = true /\ happy = default false (cache st !! n) /\ st' = st) \/
  (isCached cacheResults n st = false /\ n = 1 /\ happy = true /\ st' = st) \/
  (isCached cacheResults n st = false /\ n = 4 /\ happy = false /\ st' = st) \/
  (isCached cacheResults n st = false /\ n <> 1 /\ n <> 4 /\
   exists st1,
     isHappy' fuel (fst (childNumber' n st)) (snd (childNumber' n st))
     = Some (happy, st1) /\
     st' = newResult' n happy st1).
Proof.
  simpl. destruct (isCached cacheResults n st).
  { intros [= <- <-]. left. repeat split. }
  destruct (Z.eqb_spec n 1) as [->|H1].
  { intros [= <- <-]. right. left. repeat split. }
  destruct (Z.eqb_spec n 4) as [->|H4].
  { intros [= <- <-]. right. right. left. repeat split. }
  destruct (childNumber' n st) as [c st0]. simpl.
  destruct (isHappy' fuel c st0) as [[h st1]|] eqn:E; [|discriminate].
  intros [= <- <-]. right. right. right. repeat split; try assumption.
  exists st1. split; reflexivity.
Qed.

(** A call only adds entries to the cache, all with the value it returns. *)
Lemma isHappy_cache_grows (fuel : nat) n st happy st' :
  isHappy' fuel n st = Some (happy, st') ->
  forall k, cache st' !! k = cache st !! k \/
            (cache st !! k = None /\ cache st' !! k = Some happy).
Proof.
  revert n st happy st'. induction fuel as [|fuel IH]; intros n st happy st' H; [discriminate|].
  apply isHappy_cases in H
    as [(_ & _ & ->)|[(_ & _ & _ & ->)|[(_ & _ & _ & ->)|(_ & _ & _ & st1 & H & ->)]]];
    auto.
  intros k. specialize (IH _ _ _ _ H k). rewrite childNumber_cache in IH.
  rewrite cache_newResult. destruct cacheResults; [|exact IH].
  rewrite emplace_lookup.
  destruct (cache st1 !! k) as [w|] eqn:E1; [exact IH|].
  destruct IH as [IH|[_ IH]]; [|discriminate].
  destruct (decide (n = k)); auto.
Qed.


Lemma getNextNumber_loop_cache (fuel : nat) i st r st' :
  getNextNumber_loop skipPermutations base milestoneInc fuel i st = Some (r, st') ->
  cache st' = cache st.
Proof.
  revert i. induction fuel as [|fuel IH]; intros i; simpl; [discriminate|].
  destruct (negb skipPermutations || areDigitsSorted base i).
  - intros [= <- <-]. unfold announce. destruct milestoneInc; [|reflexivity].
    destruct (_ <? _); reflexivity.
  - apply IH.
Qed.





(** *** Classification with and without the cache *)

Lemma classify_more_fuel (f1 f2 : nat) n b :
  (f1 <= f2)%nat -> classify' f1 n = Some b -> classify' f2 n = Some b.
Proof.
  revert f2 n. induction f1 as [|f1 IH]; intros f2 n Hle H; [discriminate|].
  destruct f2 as [|f2]; [lia|]. simpl in *.
  destruct (n =? 1); [exact H|]. destruct (n =? 4); [exact H|].
  apply IH; [lia|exact H].
Qed.

Lemma classify_deterministic (f1 f2 : nat) n b1 b2 :
  classify' f1 n = Some b1 -> classify' f2 n = Some b2 -> b1 = b2.
Proof.
  intros H1 H2.
  apply (classify_more_fuel f1 (f1 + f2)) in H1; [|lia].
  apply (classify_more_fuel f2 (f1 + f2)) in H2; [|lia].
  congruence.
Qed.

(** What classification without a cache returns is reached by iterating
    [childNumber]. *)
Lemma classify_iterates (fuel : nat) n b :
  classify' fuel n = Some b ->
  exists k : nat, (k < fuel)%nat /\
    Nat.iter k (childOf skipPermutations base) n = (if b then 1 else 4).
Proof.
  revert n. induction fuel as [|fuel IH]; intros n H; [discriminate|].
  simpl in H. revert H.
  destruct (Z.eqb_spec n 1) as [->|H1].
  { intros [= <-]. exists 0%nat. split; [lia|reflexivity]. }
  destruct (Z.eqb_spec n 4) as [->|H4].
  { intros [= <-]. exists 0%nat. split; [lia|reflexivity]. }
  intros H. apply IH in H as (k & Hk & H). exists (S k). split; [lia|].
  rewrite Nat.iter_succ_r. exact H.
Qed.

(** *** When the counters start from 0

    Without [skipPermutations] no array is allocated; with it, the lemmas
    of this part need every array to be zero-filled. *)

Section Ideal.

Hypothesis ideal : skipPermutations = true -> zeroed base heap.

Lemma childNumber_ideal n st :
  fst (childNumber' n st) = childOf skipPermutations base n.
Proof.
  unfold childNumber, childOf, sortDigits_alloc.
  destruct skipPermutations; [|reflexivity].
  simpl. rewrite (ideal eq_refl). reflexivity.
Qed.

(** Whatever the cache holds, a call returns within the number of calls
    that classification without a cache needs. *)
Lemma isHappy_returns (fuel : nat) n b st :
  classify' fuel n = Some b ->
  exists happy st', isHappy' fuel n st = Some (happy, st').
Proof.
  revert n st. induction fuel as [|fuel IH]; intros n st H; [discriminate|].
  simpl in *. destruct (isCached cacheResults n st); [eauto|].
  destruct (n =? 1); [eauto|]. destruct (n =? 4); [eauto|].
  rewrite <- (childNumber_ideal n st) in H.
  destruct (childNumber' n st) as [c st0]. simpl in *.
  destruct (IH _ st0 H) as (happy & st' & ->). eauto.
Qed.

Lemma cache_sound_newResult n happy st (fuel : nat) :
  cache_sound' st -> classify' fuel n = Some happy ->
  cache_sound' (newResult' n happy st).
Proof.
  intros Hs Hn k v. rewrite cache_newResult.
  destruct cacheResults; [|apply Hs].
  rewrite emplace_lookup. destruct (cache st !! k) as [w|] eqn:E.
  - intros [= <-]. apply Hs. exact E.
  - destruct (decide (n = k)) as [<-|]; [|discriminate].
    intros [= <-]. eauto.
Qed.

Lemma isHappy_sound (fuel : nat) n st happy st' :
  cache_sound' st -> isHappy' fuel n st = Some (happy, st') ->
  (exists f, classify' f n = Some happy) /\ cache_sound' st'.
Proof.
  revert n st happy st'. induction fuel as [|fuel IH]; intros n st happy st' Hs H;
    [discriminate|].
  apply isHappy_cases in H
    as [(C & -> & ->)|[(_ & -> & -> & ->)|[(_ & -> & -> & ->)|(_ & H1 & H4 & st1 & H & ->)]]].
  - split; [|exact Hs]. apply isCached_true in C as [_ C]. apply Hs in C. exact C.
  - split; [|exact Hs]. exists 1%nat. reflexivity.
  - split; [|exact Hs]. exists 1%nat. reflexivity.
  - apply IH in H as [[f Hf] Hs1];
      [|unfold cache_sound; rewrite childNumber_cache; exact Hs].
    rewrite childNumber_ideal in Hf.
    assert (classify' (S f) n = Some happy) as Hn.
    { simpl. destruct (Z.eqb_spec n 1); [lia|]. destruct (Z.eqb_spec n 4); [lia|]. exact Hf. }
    split; [eauto|]. eapply cache_sound_newResult; eassumption.
Qed.

Lemma step_sound st st' : step' st st' -> cache_sound' st -> cache_sound' st'.
Proof.
  intros [fuel n happy s s' H|fuel i s s' H] Hs.
  - eapply isHappy_sound; eassumption.
  - apply getNextNumber_loop_cache in H. unfold cache_sound. rewrite H. exact Hs.
Qed.

Lemma reachable_sound st : reachable' st -> cache_sound' st.
Proof.
  unfold reachable. intros Hr.
  assert (cache_sound' (HnCalculator cacheResults)) as H0.
  { intros k v. unfold HnCalculator. simpl. destruct cacheResults.
    - rewrite lookup_insert. destruct (decide (4 = k)) as [<-|].
      + intros [= <-]. exists 1%nat. reflexivity.
      + rewrite lookup_insert. destruct (decide (1 = k)) as [<-|].
        * intros [= <-]. exists 1%nat. reflexivity.
        * rewrite lookup_empty. discriminate.
    - rewrite lookup_empty. discriminate. }
  revert H0. induction Hr as [|s1 s2 s3 H12 _ IH]; [auto|].
  intros H0. apply IH. eapply step_sound; eassumption.
Qed.

(** On a reachable state a call returns what classification without a
    cache returns. *)
Lemma isHappy_reachable (fuel : nat) n b st :
  reachable' st -> classify' fuel n = Some b ->
  (exists st', isHappy' fuel n st = Some (b, st')) /\
  (forall f happy st', isHappy' f n st = Some (happy, st') -> happy = b).
Proof.
  intros Hr Hc. apply reachable_sound in Hr.
  assert (forall f happy st', isHappy' f n st = Some (happy, st') -> happy = b) as Hdet.
  { intros f happy st' H. apply isHappy_sound in H as [[f' Hf'] _]; [|exact Hr].
    eapply classify_deterministic; eassumption. }
  split; [|exact Hdet].
  destruct (isHappy_returns fuel n b st Hc) as (happy & st' & H).
  rewrite H. apply Hdet in H as ->. eauto.
Qed.

End Ideal.

End Classification.

(** ** Base 10: every 64-bit number reaches 1 or 4 *)

Lemma plainSum_bounds base (ds : list Z) :
  Forall (fun d => 0 <= d < base) ds ->
  0 <= fold_right (fun d acc => d * d + acc) 0 ds
    <= (base - 1) * (base - 1) * Z.of_nat (length ds).
Proof.
  induction 1 as [|d ds Hd _ IH]; [simpl; lia|].
  cbn [fold_right length]. rewrite Nat2Z.inj_succ. nia.
Qed.

Lemma plainSum_pos base (ds : list Z) :
  2 <= base -> Forall (fun d => 0 <= d < base) ds -> 0 < valueOf base ds ->
  0 < fold_right (fun d acc => d * d + acc) 0 ds.
Proof.
  intros Hb. induction 1 as [|d ds Hd Hds IH]; [simpl; lia|].
  cbn [valueOf fold_right]. fold (valueOf base ds). intros Hpos.
  pose proof (plainSum_bounds base ds Hds) as [Hlo _].
  destruct (Z.eq_dec d 0) as [->|Hd0].
  - assert (0 < valueOf base ds) by nia. apply IH in H. lia.
  - nia.
Qed.

Lemma sumOfDigitSquares10_range n :
  1 <= n < 2 ^ 64 -> 1 <= sumOfDigitSquares 10 n <= 1620.
Proof.
  intros Hn.
  pose proof (digitsOf_range 10 ltac:(lia) n ltac:(lia)) as Hr.
  pose proof (digitsOf_length 10 n 20 ltac:(lia) ltac:(lia)) as Hlen.
  pose proof (plainSum_bounds 10 _ Hr) as [_ Hhi].
  pose proof (plainSum_pos 10 _ ltac:(lia) Hr) as Hpos.
  rewrite valueOf_digitsOf in Hpos by lia. specialize (Hpos ltac:(lia)).
  rewrite sumOfDigitSquares_digits, squareSum_plain, wrap64_small; lia.
Qed.

Lemma agree10_checked : forallb (agree10 16) (seqZ 1 1620) = true.
Proof. vm_compute. reflexivity. Qed.

Lemma agree10_spec s :
  1 <= s <= 1620 ->
  exists b, classify false 10 16 s = Some b /\
            classify true 10 16 (sortDigits 10 (zeros 10) s) = Some b.
Proof.
  intros Hs. pose proof agree10_checked as H.
  rewrite forallb_forall in H. specialize (H s).
  assert (agree10 16 s = true) as Ha.
  { apply H. apply list_elem_of_In, elem_of_seqZ. lia. }
  unfold agree10 in Ha.
  destruct (classify false 10 16 s) as [a|]; [|discriminate].
  destruct (classify true 10 16 (sortDigits 10 (zeros 10) s)) as [b|]; [|discriminate].
  apply Bool.eqb_prop in Ha as ->. eauto.
Qed.

(** In base 10 classification without a cache finishes within 17 calls,
    with the same result whether or not the iterates are sorted. *)
Lemma classify10_total n :
  1 <= n < 2 ^ 64 ->
  exists b, forall skipPermutations, classify skipPermutations 10 17 n = Some b.
Proof.
  intros Hn.
  destruct (Z.eq_dec n 1) as [->|H1]; [exists true; intros []; reflexivity|].
  destruct (Z.eq_dec n 4) as [->|H4]; [exists false; intros []; reflexivity|].
  destruct (agree10_spec (sumOfDigitSquares 10 n)) as (b & Hf & Ht).
  { apply sumOfDigitSquares10_range. exact Hn. }
  exists b. intros skip.
  change (classify skip 10 17 n)
    with (if n =? 1 then Some true else if n =? 4 then Some false
          else classify skip 10 16 (childOf skip 10 n)).
  destruct (Z.eqb_spec n 1); [lia|]. destruct (Z.eqb_spec n 4); [lia|].
  destruct skip; assumption.
Qed.

(** A call that finds nothing in the cache and is on neither 1 nor 4
    recurses on the iterate. *)
Lemma isHappy_miss cacheResults skipPermutations base outputResults heap
    (fuel : nat) n st :
  isCached cacheResults n st = false -> n <> 1 -> n <> 4 ->
  isHappy cacheResults skipPermutations base outputResults heap (S fuel) n st
  = match isHappy cacheResults skipPermutations base outputResults heap fuel
            (fst (childNumber skipPermutations base heap n st))
            (snd (childNumber skipPermutations base heap n st)) with
    | Some (happy, st') => Some (happy, newResult cacheResults outputResults n happy st')
    | None => None
    end.
Proof.
  intros Hc H1 H4. cbn [isHappy]. rewrite Hc.
  destruct (Z.eqb_spec n 1); [contradiction|].
  destruct (Z.eqb_spec n 4); [contradiction|].
  destruct (childNumber skipPermutations base heap n st) as [c st0]. reflexivity.
Qed.

Lemma isCached_miss cacheResults n st :
  cache st !! n = None -> isCached cacheResults n st = false.
Proof.
  intros Hn. unfold isCached. rewrite Hn. destruct cacheResults; [|reflexivity].
  apply bool_decide_eq_false. intros [v Hv]. discriminate Hv.
Qed.

(** With counters that hold [leftover], 12297829382473034412 is its own
    iterate: a call on it recurses for as long as the arrays it is given
    hold these bytes. *)
Lemma isHappy_stuck cacheResults outputResults heap (fuel : nat) st :
  (forall k, (allocated st <= k < allocated st + fuel)%nat -> heap k = leftover) ->
  cache st !! 12297829382473034412 = None ->
  isHappy cacheResults true 10 outputResults heap fuel 12297829382473034412 st
  = None.
Proof.
  revert st. induction fuel as [|fuel IH]; intros st Hheap Hc; [reflexivity|].
  rewrite isHappy_miss; [|apply isCached_miss; exact Hc|lia|lia].
  unfold childNumber, sortDigits_alloc. cbn [fst snd].
  rewrite (Hheap (allocated st)) by lia.
  assert (sortDigits 10 leftover (sumOfDigitSquares 10 12297829382473034412)
          = 12297829382473034412) as -> by (vm_compute; reflexivity).
  rewrite IH; [reflexivity| |exact Hc].
  intros k Hk. apply Hheap. simpl in Hk. lia.
Qed.

(** C1 fails in the code, which leaves the counters of [sortDigits]
    uninitialised: in base 10, with [skipPermutations] and on a new
    calculator, as long as the arrays hold the bytes of [leftover], the
    iterates of 2 are 12297829382473034410 and then 12297829382473034412
    again and again, and [isHappy 2] has not returned after any number
    [fuel] of nested calls when the first [fuel] arrays hold these bytes:
    the depth of the recursion has no bound. *)
Theorem isHappy_uninitialised_diverges (cacheResults outputResults : bool)
    (heap : nat -> list Z) (fuel : nat) :
  (forall k, (k < fuel)%nat -> heap k = leftover) ->
  isHappy cacheResults true 10 outputResults heap fuel 2
    (HnCalculator cacheResults) = None.
Proof.
  intros Hheap. destruct fuel as [|fuel]; [reflexivity|].
  rewrite isHappy_miss;
    [|apply isCached_miss; destruct cacheResults; vm_compute; reflexivity|lia|lia].
  unfold childNumber, sortDigits_alloc. cbn [fst snd].
  change (allocated (HnCalculator cacheResults)) with 0%nat.
  rewrite (Hheap 0%nat) by lia.
  assert (sortDigits 10 leftover (sumOfDigitSquares 10 2) = 12297829382473034410)
    as -> by (vm_compute; reflexivity).
  destruct fuel as [|fuel]; [reflexivity|].
  rewrite isHappy_miss;
    [|apply isCached_miss; destruct cacheResults; vm_compute; reflexivity|lia|lia].
  unfold childNumber, sortDigits_alloc. cbn [fst snd].
  change (allocated (set_allocated 1 (HnCalculator cacheResults))) with 1%nat.
  rewrite (Hheap 1%nat) by lia.
  assert (sortDigits 10 leftover (sumOfDigitSquares 10 12297829382473034410)
          = 12297829382473034412) as -> by (vm_compute; reflexivity).
  rewrite isHappy_stuck; [reflexivity| |].
  - intros k Hk. apply Hheap. simpl in Hk. lia.
  - destruct cacheResults; vm_compute; reflexivity.
Qed.

Lemma isHappy_uninitialised_diverges_witness :
  (forall k, (k < 1000)%nat -> heap_always k = leftover) /\
  isHappy true true 10 true heap_always 1000 2 (HnCalculator true) = None.
Proof.
  assert (forall k, (k < 1000)%nat -> heap_always k = leftover) as Hheap
    by (intros k _; reflexivity).
  split; [exact Hheap|].
  exact (isHappy_uninitialised_diverges true true heap_always 1000 Hheap).
Defined.

(** C2 fails in the code, which leaves the counters of [sortDigits]
    uninitialised: in base 10, with [skipPermutations] and on a new
    calculator, when the first array holds the bytes of [leftover],
    [isHappy] returns false for 7 and for 19; without [skipPermutations]
    it returns true for both. *)
Theorem isHappy_uninitialised_values (cacheResults outputResults : bool) :
  (exists st',
     isHappy cacheResults true 10 outputResults heap_once 17 7
       (HnCalculator cacheResults) = Some (false, st')) /\
  (exists st',
     isHappy cacheResults true 10 outputResults heap_once 17 19
       (HnCalculator cacheResults) = Some (false, st')) /\
  (exists st',
     isHappy cacheResults false 10 outputResults heap_once 17 7
       (HnCalculator cacheResults) = Some (true, st')) /\
  (exists st',
     isHappy cacheResults false 10 outputResults heap_once 17 19
       (HnCalculator cacheResults) = Some (true, st')).
Proof.
  destruct cacheResults, outputResults;
    repeat split; eexists; vm_compute; reflexivity.
Qed.



(** C9 fails in the code, which leaves the counters of [sortDigits]
    uninitialised: in base 10 and on a new calculator, when the first array
    holds the bytes of [leftover], [isHappy 1177] is true without
    [skipPermutations] and false with it, with and without the cache. *)
Theorem isHappy_uninitialised_flags (cacheResults outputResults : bool) :
  exists st1 st2,
    isHappy cacheResults false 10 outputResults heap_once 17 1177
      (HnCalculator cacheResults) = Some (true, st1) /\
    isHappy cacheResults true 10 outputResults heap_once 17 1177
      (HnCalculator cacheResults) = Some (false, st2).
Proof.
  destruct cacheResults, outputResults;
    eexists; eexists; split; vm_compute; reflexivity.
Qed.

(** ** The cursor *)

Section Cursor.

Variable skipPermutations : bool.
Variable base : Z.
Variable milestoneInc : option Z.

Local Abbreviation loop' := (getNextNumber_loop skipPermutations base milestoneInc).
Local Abbreviation getNextNumber' := (getNextNumber skipPermutations base milestoneInc).
Local Abbreviation pull' := (pull skipPermutations base milestoneInc).
Local Abbreviation announce' := (announce milestoneInc).

Lemma announce_set_nextNumber i c st :
  announce' i (set_nextNumber c st) = set_nextNumber c (announce' i st).
Proof.
  unfold announce. destruct milestoneInc; [|reflexivity]. simpl.
  destruct (_ <? _); reflexivity.
Qed.

(** The loop reads [nextNumber] only to start from it. *)
Lemma getNextNumber_loop_from (fuel : nat) i c st :
  loop' fuel i (set_nextNumber c st) = loop' fuel i st.
Proof.
  revert i. induction fuel as [|fuel IH]; intros i; simpl; [reflexivity|].
  destruct (negb skipPermutations || areDigitsSorted base i); [|apply IH].
  rewrite announce_set_nextNumber. reflexivity.
Qed.

Lemma getNextNumber_loop_more_fuel (f1 f2 : nat) i st r :
  (f1 <= f2)%nat -> loop' f1 i st = Some r -> loop' f2 i st = Some r.
Proof.
  revert f2 i. induction f1 as [|f1 IH]; intros f2 i Hle H; [discriminate|].
  destruct f2 as [|f2]; [lia|]. simpl in *.
  destruct (negb skipPermutations || areDigitsSorted base i); [exact H|].
  apply IH; [lia|exact H].
Qed.

Lemma pull_more_fuel (f1 f2 k : nat) st r :
  (f1 <= f2)%nat -> pull' f1 k st = Some r -> pull' f2 k st = Some r.
Proof.
  intros Hle. revert st r. induction k as [|k IH]; intros st r; simpl; [auto|].
  unfold getNextNumber.
  destruct (loop' f1 (nextNumber st) st) as [[i st1]|] eqn:E; [|discriminate].
  rewrite (getNextNumber_loop_more_fuel _ _ _ _ _ Hle E).
  destruct (pull' f1 k st1) as [[l st2]|] eqn:E'; [|discriminate].
  rewrite (IH _ _ E'). auto.
Qed.

Lemma pull_snoc (fuel k : nat) st l st1 i st2 :
  pull' fuel k st = Some (l, st1) ->
  getNextNumber' fuel st1 = Some (i, st2) ->
  pull' fuel (S k) st = Some (l ++ [i], st2).
Proof.
  revert st l. induction k as [|k IH]; intros st l H Hn.
  - injection H as <- <-. simpl. rewrite Hn. reflexivity.
  - cbn [pull] in H |- *.
    destruct (getNextNumber' fuel st) as [[j st']|]; [|discriminate].
    destruct (pull' fuel k st') as [[l' st'']|] eqn:E; [|discriminate].
    injection H as <- <-.
    apply (IH _ _ E) in Hn. cbn [pull] in Hn. rewrite Hn. reflexivity.
Qed.

End Cursor.

(** *** The cursor when permutations are skipped *)

Lemma StronglySorted_filter_lt (P : Z -> Prop) `{!forall i, Decision (P i)} (l : list Z) :
  StronglySorted Z.lt l -> StronglySorted Z.lt (filter P l).
Proof.
  induction 1 as [|a l _ IH Ha]; [constructor|].
  destruct (decide (P a)) as [Hp|Hp].
  - rewrite filter_cons_True by exact Hp. constructor; [exact IH|].
    apply Forall_forall. intros j Hj. apply list_elem_of_filter in Hj as [_ Hj].
    rewrite Forall_forall in Ha. apply Ha. exact Hj.
  - rewrite filter_cons_False by exact Hp. exact IH.
Qed.

Section SkipCursor.

Variable base : Z.
Variable milestoneInc : option Z.

Local Abbreviation loop' := (getNextNumber_loop true base milestoneInc).
Local Abbreviation pull' := (pull true base milestoneInc).
Local Abbreviation announce' := (announce milestoneInc).
Local Abbreviation sorted' := (fun i => areDigitsSorted base i = true).

(** Scanning from [i] finds the least number with sorted digits, provided
    there is one below 2^64. *)
Lemma scan_finds (k : nat) i x :
  0 <= i -> x = i + Z.of_nat k -> x < 2 ^ 64 -> areDigitsSorted base x = true ->
  exists (fuel : nat) y,
    i <= y <= x /\ areDigitsSorted base y = true /\
    (forall j, i <= j < y -> areDigitsSorted base j = false) /\
    forall st,
      loop' fuel i st = Some (y, set_nextNumber (wrap64 (y + 1)) (announce' y st)).
Proof.
  revert i. induction k as [|k IH]; intros i Hi Hx Hlt Hs.
  - replace x with i in * by lia. exists 1%nat, i.
    split; [lia|]. split; [exact Hs|]. split; [intros j Hj; lia|].
    intros st. simpl. rewrite Hs. reflexivity.
  - destruct (areDigitsSorted base i) eqn:Ei.
    + exists 1%nat, i.
      split; [lia|]. split; [exact Ei|]. split; [intros j Hj; lia|].
      intros st. simpl. rewrite Ei. reflexivity.
    + destruct (IH (i + 1)) as (fuel & y & Hy & Hsy & Hmin & Hloop); try lia; [exact Hs|].
      exists (S fuel), y.
      split; [lia|]. split; [exact Hsy|]. split.
      * intros j Hj. destruct (Z.eq_dec j i) as [->|]; [exact Ei|]. apply Hmin. lia.
      * intros st. simpl. rewrite Ei. simpl.
        rewrite wrap64_small by lia. apply Hloop.
Qed.

(** From [nextNumber = c], successive calls return the numbers with sorted
    digits in [c, B) in increasing order, and then the least one from [B]
    up. *)
Lemma pull_run B x (d : nat) c :
  B <= x -> x < 2 ^ 64 -> areDigitsSorted base x = true ->
  0 <= c -> B = c + Z.of_nat d ->
  forall st, exists (fuel k : nat) y st',
    pull' fuel (S k) (set_nextNumber c st)
    = Some (filter sorted' (seqZ c (B - c)) ++ [y], st') /\
    B <= y <= x /\ areDigitsSorted base y = true /\
    (forall j, B <= j < y -> areDigitsSorted base j = false) /\
    nextNumber st' = wrap64 (y + 1).
Proof.
  intros HBx Hx Hs. revert c. induction d as [|d IH]; intros c Hc HB st.
  - replace c with B in * by lia.
    destruct (scan_finds (Z.to_nat (x - B)) B x) as (fuel & y & Hy & Hsy & Hmin & Hloop);
      try lia; [exact Hs|].
    exists fuel, 0%nat, y. eexists. split.
    { rewrite seqZ_nil by lia. cbn [pull]. unfold getNextNumber. simpl nextNumber.
      rewrite Hloop. reflexivity. }
    split; [lia|]. split; [exact Hsy|]. split; [exact Hmin|]. reflexivity.
  - rewrite seqZ_cons by lia.
    replace (Z.succ c) with (c + 1) by lia.
    replace (Z.pred (B - c)) with (B - (c + 1)) by lia.
    destruct (areDigitsSorted base c) eqn:Ec.
    + rewrite filter_cons_True by exact Ec.
      destruct (IH (c + 1) ltac:(lia) ltac:(lia) (announce' c (set_nextNumber c st)))
        as (fuel & k & y & st' & Hpull & Hy & Hsy & Hmin & Hnext).
      exists (S fuel), (S k), y, st'.
      split; [|split; [lia|]; split; [exact Hsy|]; split; [exact Hmin|]; exact Hnext].
      apply (pull_more_fuel _ _ _ fuel (S fuel)) in Hpull; [|lia].
      change (pull' (S fuel) (S (S k)) (set_nextNumber c st))
        with (match getNextNumber true base milestoneInc (S fuel) (set_nextNumber c st) with
              | Some (i, st1) =>
                  match pull' (S fuel) (S k) st1 with
                  | Some (l, st2) => Some (i :: l, st2)
                  | None => None
                  end
              | None => None
              end).
      unfold getNextNumber. simpl nextNumber.
      cbn [getNextNumber_loop]. rewrite Ec. cbn [negb orb].
      rewrite wrap64_small by lia. rewrite Hpull. reflexivity.
    + rewrite filter_cons_False by (rewrite Ec; discriminate).
      destruct (IH (c + 1) ltac:(lia) ltac:(lia) st)
        as (fuel & k & y & st' & Hpull & Hy & Hsy & Hmin & Hnext).
      exists (S fuel), k, y, st'.
      split; [|split; [lia|]; split; [exact Hsy|]; split; [exact Hmin|]; exact Hnext].
      cbn [pull] in Hpull |- *. unfold getNextNumber in *. simpl nextNumber in *.
      cbn [getNextNumber_loop]. rewrite Ec. cbn [negb orb].
      rewrite wrap64_small by lia.
      rewrite getNextNumber_loop_from in Hpull |- *.
      destruct (loop' fuel (c + 1) st) as [[i st1]|] eqn:E; [|discriminate].
      destruct (pull' fuel k st1) as [[l st2]|] eqn:E'; [|discriminate].
      rewrite (pull_more_fuel _ _ _ fuel (S fuel) k st1 _ ltac:(lia) E').
      exact Hpull.
Qed.

End SkipCursor.

(** C5, as the code has it: when permutations are skipped, for every bound
    [B] from 1 up that does not exceed some 64-bit number [x] with sorted
    digits, the calls of [getNextNumber] on a fresh calculator return
    exactly the numbers of [1, B) that pass [areDigitsSorted], in strictly
    increasing order, and then a number from [B] up. *)
Theorem cursor_exhaustive (cacheResults : bool) (base : Z)
    (milestoneInc : option Z) (B x : Z) :
  1 <= B <= x -> x < 2 ^ 64 -> areDigitsSorted base x = true ->
  exists (fuel k : nat) y st',
    pull true base milestoneInc fuel (S k) (HnCalculator cacheResults)
    = Some (filter (fun i => areDigitsSorted base i = true) (seqZ 1 (B - 1)) ++ [y],
            st') /\
    B <= y /\
    StronglySorted Z.lt
      (filter (fun i => areDigitsSorted base i = true) (seqZ 1 (B - 1)) ++ [y]).
Proof.
  intros HB Hx Hs.
  destruct (pull_run base milestoneInc B x (Z.to_nat (B - 1)) 1
              ltac:(lia) Hx Hs ltac:(lia) ltac:(lia) (HnCalculator cacheResults))
    as (fuel & k & y & st' & Hpull & Hy & _ & _ & _).
  exists fuel, k, y, st'. split; [exact Hpull|]. split; [lia|].
  apply StronglySorted_app_2.
  - intros i j Hi Hj. apply list_elem_of_filter in Hi as [_ Hi].
    apply elem_of_seqZ in Hi. apply list_elem_of_singleton in Hj as ->. lia.
  - apply StronglySorted_filter_lt, StronglySorted_seqZ.
  - repeat constructor.
Qed.

Lemma cursor_exhaustive_witness :
  1 <= 30 <= 33 /\ 33 < 2 ^ 64 /\ areDigitsSorted 10 33 = true /\
  exists (fuel k : nat) y st',
    pull true 10 None fuel (S k) (HnCalculator true)
    = Some (filter (fun i => areDigitsSorted 10 i = true) (seqZ 1 (30 - 1)) ++ [y],
            st') /\
    30 <= y /\
    StronglySorted Z.lt
      (filter (fun i => areDigitsSorted 10 i = true) (seqZ 1 (30 - 1)) ++ [y]).
Proof.
  split; [lia|]. split; [lia|]. split; [reflexivity|].
  apply (cursor_exhaustive true 10 None 30 33); [lia|lia|reflexivity].
Defined.

(** *** Past the last 64-bit number with sorted digits *)

Lemma nonIncreasing_weaken p q (ds : list Z) :
  p <= q -> nonIncreasing p ds = true -> nonIncreasing q ds = true.
Proof.
  intros Hpq. destruct ds as [|d ds]; [reflexivity|]. simpl.
  destruct (Z.ltb_spec p d); [discriminate|].
  destruct (Z.ltb_spec q d); [lia|]. auto.
Qed.

Lemma areDigitsSorted_div base n :
  2 <= base -> 0 <= n ->
  areDigitsSorted base n = true -> areDigitsSorted base (n / base) = true.
Proof.
  intros Hb Hn. destruct (Z.eq_dec n 0) as [->|Hne].
  { rewrite Z.div_0_l by lia. auto. }
  rewrite !areDigitsSorted_digits by (try apply Z.div_pos; lia).
  rewrite (digitsOf_pos base Hb n) by lia. simpl.
  destruct (base <? n mod base); [discriminate|].
  apply nonIncreasing_weaken.
  pose proof (Z.mod_pos_bound n base). lia.
Qed.

Lemma areDigitsSorted_div_pow base n (k : nat) :
  2 <= base -> 0 <= n ->
  areDigitsSorted base n = true ->
  areDigitsSorted base (n / base ^ Z.of_nat k) = true.
Proof.
  intros Hb Hn Hs. induction k as [|k IH].
  - simpl. rewrite Z.div_1_r. exact Hs.
  - rewrite Nat2Z.inj_succ, Z.pow_succ_r by lia.
    rewrite (Z.mul_comm base), <- Z.div_div by (try apply Z.pow_pos_nonneg; lia).
    apply areDigitsSorted_div; [exact Hb| |exact IH].
    apply Z.div_pos; [lia|]. apply Z.pow_pos_nonneg; lia.
Qed.

(** In base 10 no number from 18000000000000000000 up to [UINT64_MAX] has
    sorted digits: it starts with 18 followed by a digit below 5. *)
Lemma unsorted_tail10 j :
  18000000000000000000 <= j < 2 ^ 64 -> areDigitsSorted 10 j = false.
Proof.
  intros Hj. destruct (areDigitsSorted 10 j) eqn:E; [|reflexivity].
  apply (areDigitsSorted_div_pow 10 j 17) in E; [|lia|lia].
  assert (180 <= j / 10 ^ Z.of_nat 17 <= 184) as Hm.
  { change (10 ^ Z.of_nat 17) with 100000000000000000.
    pose proof (Z.div_mod j 100000000000000000 ltac:(lia)).
    pose proof (Z.mod_pos_bound j 100000000000000000 ltac:(lia)). lia. }
  assert (j / 10 ^ Z.of_nat 17 = 180 \/ j / 10 ^ Z.of_nat 17 = 181 \/
          j / 10 ^ Z.of_nat 17 = 182 \/ j / 10 ^ Z.of_nat 17 = 183 \/
          j / 10 ^ Z.of_nat 17 = 184) as Hc by lia.
  destruct Hc as [H|[H|[H|[H|H]]]]; rewrite H in E; vm_compute in E; discriminate E.
Qed.

(** A scan that finds no sorted number up to [UINT64_MAX] wraps around and
    returns 0. *)
Lemma scan_wraps base milestoneInc (k : nat) i st :
  0 <= i -> i + Z.of_nat k = 2 ^ 64 - 1 ->
  (forall j, i <= j < 2 ^ 64 -> areDigitsSorted base j = false) ->
  getNextNumber_loop true base milestoneInc (S (S k)) i st
  = Some (0, set_nextNumber (wrap64 (0 + 1)) (announce milestoneInc 0 st)).
Proof.
  revert i. induction k as [|k IH]; intros i Hi Hk Hun.
  - cbn [getNextNumber_loop]. rewrite (Hun i) by lia. cbn [negb orb].
    replace i with (2 ^ 64 - 1) by lia. reflexivity.
  - cbn [getNextNumber_loop]. rewrite (Hun i) by lia. cbn [negb orb].
    rewrite wrap64_small by lia.
    apply IH; [lia|lia|]. intros j Hj. apply Hun. lia.
Qed.

(** C5, as stated, fails for the bound [UINT64_MAX] (the default [stopAt])
    in base 10: before any number from the bound up is returned, the
    cursor wraps around and returns 0, which is not in [1, B). *)
Lemma cursor_wraps_around :
  exists (fuel k : nat) l st',
    pull true 10 None fuel k (HnCalculator true) = Some (l, st') /\
    Forall (fun i => i < UINT64_MAX) l /\
    In 0 l /\
    ~ StronglySorted Z.lt l.
Proof.
  pose (Y := 17999999999999999999).
  destruct (pull_run 10 None Y Y (Z.to_nat (Y - 1)) 1
              ltac:(lia) ltac:(unfold Y; lia) ltac:(reflexivity)
              ltac:(lia) ltac:(unfold Y; lia) (HnCalculator true))
    as (f1 & k & y & st1 & Hpull & Hy & _ & _ & Hnext).
  assert (y = Y) as -> by lia.
  pose (k2 := Z.to_nat (2 ^ 64 - 1 - (Y + 1))).
  pose proof (scan_wraps 10 None k2 (Y + 1) st1
                ltac:(unfold Y; lia) ltac:(unfold k2, Y; lia)
                ltac:(intros j Hj; apply unsorted_tail10; unfold Y in Hj; lia)) as Hwrap.
  change (HnCalculator true) with (set_nextNumber 1 (HnCalculator true)).
  exists (Nat.max f1 (S (S k2))), (S (S k)). eexists. eexists.
  split; [|split; [|split]].
  - eapply pull_snoc.
    + eapply pull_more_fuel; [|exact Hpull]. lia.
    + unfold getNextNumber. rewrite Hnext, wrap64_small by (unfold Y; lia).
      eapply getNextNumber_loop_more_fuel; [|exact Hwrap]. lia.
  - apply Forall_app. split; [apply Forall_app; split|].
    + apply Forall_forall. intros i Hi. apply list_elem_of_filter in Hi as [_ Hi].
      apply elem_of_seqZ in Hi. unfold UINT64_MAX, Y in *. lia.
    + repeat constructor.
    + repeat constructor.
  - apply in_or_app. right. left. reflexivity.
  - intros Hs.
    apply StronglySorted_app_1_elem_of with (x1 := Y) (x2 := 0) in Hs.
    + unfold Y in Hs. lia.
    + apply elem_of_app. right. constructor.
    + constructor.
Qed.

(** ** Milestones *)

(** One call announces at most one milestone, the one after
    [lastMilestone], however many candidates the scan has passed. *)
Lemma getNextNumber_loop_out skipPermutations base inc (fuel : nat) j st i st' :
  getNextNumber_loop skipPermutations base (Some inc) fuel j st = Some (i, st') ->
  (out st' = out st /\ lastMilestone st' = lastMilestone st) \/
  (out st' = out st ++ [Milestone (wrap64 (lastMilestone st + inc))] /\
   lastMilestone st' = wrap64 (lastMilestone st + inc) /\
   lastMilestone st' < i).
Proof.
  revert j. induction fuel as [|fuel IH]; intros j; simpl; [discriminate|].
  destruct (negb skipPermutations || areDigitsSorted base j); [|apply IH].
  intros [= <- <-]. unfold announce.
  destruct (Z.ltb_spec (wrap64 (lastMilestone st + inc)) j); simpl; auto.
Qed.

Section Milestones.

Variable base : Z.
Variable inc : Z.
Hypothesis inc_pos : 1 <= inc.

Local Abbreviation pull' := (pull false base (Some inc)).

Lemma fired_spec i :
  0 <= i ->
  0 <= fired inc i /\ inc * fired inc i <= Z.max 0 (i - 1) < inc * fired inc i + inc.
Proof.
  intros Hi. unfold fired. destruct (Z.eq_dec i 0) as [->|Hne].
  - assert ((0 - 1) / inc = -1) as ->
      by (symmetry; apply Z.div_unique with (inc - 1); lia).
    lia.
  - pose proof (Z.div_mod (i - 1) inc ltac:(lia)).
    pose proof (Z.mod_pos_bound (i - 1) inc ltac:(lia)).
    assert (0 <= (i - 1) / inc) by (apply Z.div_pos; lia). lia.
Qed.

Lemma fired_succ i :
  0 <= i ->
  fired inc (i + 1)
  = if inc * fired inc i + inc <? i + 1 then fired inc i + 1 else fired inc i.
Proof.
  intros Hi.
  pose proof (fired_spec i Hi) as (H0 & H1 & H2).
  pose proof (fired_spec (i + 1) ltac:(lia)) as (H0' & H1' & H2').
  destruct (Z.ltb_spec (inc * fired inc i + inc) (i + 1)); nia.
Qed.

Lemma fired_le i : 0 <= i -> inc * fired inc i <= Z.max 0 (i - 1).
Proof. intros Hi. apply fired_spec. exact Hi. Qed.

Lemma fired_mono i j : i <= j -> fired inc i <= fired inc j.
Proof.
  intros Hij. unfold fired. apply Z.max_le_compat_l, Z.div_le_mono; lia.
Qed.

(** Without skipping, [k] calls from [nextNumber = i + 1] hand out
    [i + 1 .. i + k] and announce the milestones in between. *)
Lemma pull_noskip (k : nat) i st :
  0 <= i -> i + Z.of_nat k + inc < 2 ^ 64 ->
  nextNumber st = i + 1 -> lastMilestone st = inc * fired inc i ->
  exists st',
    pull' 1 k st = Some (seqZ (i + 1) (Z.of_nat k), st') /\
    nextNumber st' = i + Z.of_nat k + 1 /\
    lastMilestone st' = inc * fired inc (i + Z.of_nat k) /\
    out st' = out st ++
      map (fun j => Milestone (j * inc))
          (seqZ (fired inc i + 1) (fired inc (i + Z.of_nat k) - fired inc i)).
Proof.
  revert i st. induction k as [|k IH]; intros i st Hi Hk Hn Hl.
  - exists st. rewrite Z.add_0_r, Z.sub_diag, seqZ_nil by lia. simpl.
    rewrite app_nil_r. repeat split; [lia|exact Hl].
  - pose proof (fired_le i Hi) as Hle. pose proof (fired_succ i Hi) as Hsucc.
    assert (0 <= inc * fired inc i) as Hnn.
    { pose proof (fired_spec i Hi). nia. }
    set (st1 := set_nextNumber (i + 1 + 1) (announce (Some inc) (i + 1) st)).
    destruct (IH (i + 1) st1) as (st' & Hpull & Hn' & Hl' & Ho'); try lia.
    { reflexivity. }
    { unfold st1, announce. simpl. rewrite Hl, wrap64_small by lia.
      rewrite Hsucc. destruct (_ <? _); simpl; lia. }
    exists st'. split; [|split; [lia|split]].
    + cbn [pull]. unfold getNextNumber. rewrite Hn. cbn [getNextNumber_loop negb orb].
      rewrite (wrap64_small (i + 1 + 1)) by lia. fold st1. rewrite Hpull.
      rewrite (seqZ_cons (i + 1) (Z.of_nat (S k))) by lia.
      replace (Z.pred (Z.of_nat (S k))) with (Z.of_nat k) by lia.
      replace (Z.succ (i + 1)) with (i + 1 + 1) by lia. reflexivity.
    + rewrite Hl'. f_equal. f_equal. lia.
    + rewrite Ho'. replace (i + 1 + Z.of_nat k) with (i + Z.of_nat (S k)) by lia.
      assert (fired inc (i + 1) <= fired inc (i + Z.of_nat (S k))) as Hmono.
      { apply fired_mono. lia. }
      unfold st1, announce. simpl. rewrite Hl, wrap64_small by lia.
      destruct (Z.ltb_spec (inc * fired inc i + inc) (i + 1)) as [Hlt|Hge].
      * simpl. rewrite <- app_assoc. f_equal.
        replace (fired inc (i + Z.of_nat (S k)) - fired inc i)
          with (1 + (fired inc (i + Z.of_nat (S k)) - fired inc (i + 1))) by lia.
        rewrite seqZ_app by lia. rewrite map_app.
        rewrite Hsucc. f_equal.
        rewrite seqZ_cons, seqZ_nil by lia. simpl. f_equal. f_equal. lia.
      * simpl. rewrite Hsucc. reflexivity.
Qed.

End Milestones.

(** C6, as the code has it: with milestone interval [M] from 1 up and
    without skipping, the [B - 1] calls of [getNextNumber] that hand out
    [1 .. B - 1] announce exactly the boundaries [M, 2M, ..., qM] with
    [q = (B - 2) / M], in this order and once each ([jM] is announced by
    the call that hands out the first number above [jM]); and in every
    mode one call announces at most one boundary, the one that follows
    [lastMilestone]. *)
Theorem milestones_fired (cacheResults : bool) (base M B : Z) :
  1 <= M -> 1 <= B -> B + M <= 2 ^ 64 ->
  (exists st',
     pull false base (Some M) 1 (Z.to_nat (B - 1)) (HnCalculator cacheResults)
     = Some (seqZ 1 (B - 1), st') /\
     out st' = map (fun j => Milestone (j * M)) (seqZ 1 ((B - 2) / M))) /\
  (forall skipPermutations fuel st i st',
     getNextNumber skipPermutations base (Some M) fuel st = Some (i, st') ->
     (out st' = out st /\ lastMilestone st' = lastMilestone st) \/
     (out st' = out st ++ [Milestone (wrap64 (lastMilestone st + M))] /\
      lastMilestone st' = wrap64 (lastMilestone st + M) /\
      lastMilestone st' < i)).
Proof.
  intros HM HB Hsum. split.
  - assert (fired M 0 = 0) as H0.
    { pose proof (fired_spec M HM 0 ltac:(lia)). nia. }
    destruct (pull_noskip base M HM (Z.to_nat (B - 1)) 0 (HnCalculator cacheResults))
      as (st' & Hpull & _ & _ & Hout); try lia; try reflexivity.
    { rewrite H0. simpl. lia. }
    exists st'. rewrite Z2Nat.id in * by lia. split; [exact Hpull|].
    rewrite Hout, H0. simpl. f_equal. unfold fired.
    replace (0 + (B - 1) - 1) with (B - 2) by lia.
    destruct (Z.le_gt_cases 0 ((B - 2) / M)).
    + rewrite Z.max_r by lia. rewrite Z.sub_0_r. reflexivity.
    + rewrite Z.max_l by lia. rewrite !seqZ_nil by lia. reflexivity.
  - intros skipPermutations fuel st i st'. apply getNextNumber_loop_out.
Qed.

Lemma milestones_fired_witness :
  1 <= 10 /\ 1 <= 35 /\ 35 + 10 <= 2 ^ 64 /\
  exists st',
    pull false 10 (Some 10) 1 (Z.to_nat (35 - 1)) (HnCalculator true)
    = Some (seqZ 1 (35 - 1), st') /\
    out st' = map (fun j => Milestone (j * 10)) (seqZ 1 ((35 - 2) / 10)).
Proof.
  split; [lia|]. split; [lia|]. split; [lia|].
  apply (milestones_fired true 10 10 35); lia.
Defined.

(** C6, as stated, fails: with [M = 2] and [B = 3] the numbers 1 and 2 are
    handed out and no milestone has been announced, where the claim counts
    [(3 - 1) / 2 = 1]; and when permutations are skipped, with [M = 1] and
    [B = 12] the ten numbers 1 .. 9 and 11 are handed out and 9 milestones
    have been announced, where the claim counts 11. *)
Lemma milestones_off_by_one :
  (exists st',
     pull false 10 (Some 2) 1 2 (HnCalculator true) = Some ([1; 2], st') /\
     out st' = [] /\ (3 - 1) / 2 = 1) /\
  (exists st',
     pull true 10 (Some 1) 2 10 (HnCalculator true)
     = Some ([1; 2; 3; 4; 5; 6; 7; 8; 9; 11], st') /\
     length (out st') = 9%nat /\ (12 - 1) / 1 = 11).
Proof.
  split; eexists; (split; [vm_compute; reflexivity|split; reflexivity]).
Qed.

(** ** The worker loop *)

Section Worker.

Variable cacheResults : bool.
Variable skipPermutations : bool.
Variable base : Z.
Variable stopAt : Z.
Variable outputResults : bool.
Variable milestoneInc : option Z.
Variable heap : nat -> list Z.

Local Abbreviation threadLoop_from' :=
  (threadLoop_from cacheResults skipPermutations base stopAt outputResults milestoneInc heap).



End Worker.





(** * Further properties *)

(** ** The digit functions *)

Lemma wrap64_le x : 0 <= x -> 0 <= wrap64 x <= x.
Proof.
  intros Hx. unfold wrap64. split.
  - apply Z.mod_pos_bound. lia.
  - apply Z.mod_le; lia.
Qed.

(** X1: for a base from 2 to 127 and a 64-bit [n], the 64-bit arithmetic of
    [sumOfDigitSquares] never wraps around: the result is the plain sum of
    the squared digits, it is at most [64 * (base - 1)^2], and it is 0 only
    for [n = 0]. *)
Theorem sumOfDigitSquares_exact (base n : Z) :
  2 <= base <= 127 -> 0 <= n < 2 ^ 64 ->
  sumOfDigitSquares base n
  = fold_right (fun d acc => d * d + acc) 0 (digitsOf base n) /\
  sumOfDigitSquares base n <= 64 * ((base - 1) * (base - 1)) /\
  (sumOfDigitSquares base n = 0 <-> n = 0).
Proof.
  intros Hb Hn.
  pose proof (digitsOf_range base ltac:(lia) n ltac:(lia)) as Hr.
  pose proof (digitsOf_length_64 base n ltac:(lia) Hn) as Hlen.
  pose proof (plainSum_bounds base _ Hr) as [Hlo Hhi].
  assert (fold_right (fun d acc => d * d + acc) 0 (digitsOf base n)
          <= 64 * ((base - 1) * (base - 1))) as Hbound by nia.
  assert (sumOfDigitSquares base n
          = fold_right (fun d acc => d * d + acc) 0 (digitsOf base n)) as Heq.
  { rewrite sumOfDigitSquares_digits, squareSum_plain. apply wrap64_small. nia. }
  split; [exact Heq|]. split; [lia|]. split.
  - intros H0. destruct (Z.eq_dec n 0) as [|Hne]; [assumption|].
    pose proof (plainSum_pos base _ ltac:(lia) Hr) as Hpos.
    rewrite valueOf_digitsOf in Hpos by lia. specialize (Hpos ltac:(lia)). lia.
  - intros ->. reflexivity.
Qed.

Lemma sumOfDigitSquares_exact_witness :
  2 <= 10 <= 127 /\ 0 <= 19 < 2 ^ 64 /\
  sumOfDigitSquares 10 19
  = fold_right (fun d acc => d * d + acc) 0 (digitsOf 10 19) /\
  sumOfDigitSquares 10 19 <= 64 * ((10 - 1) * (10 - 1)) /\
  (sumOfDigitSquares 10 19 = 0 <-> 19 = 0).
Proof.
  split; [lia|]. split; [lia|]. apply (sumOfDigitSquares_exact 10 19); lia.
Defined.

Lemma descent10_checked :
  forallb (fun n => sumOfDigitSquares 10 n <? n) (seqZ 100 900) = true.
Proof. vm_compute. reflexivity. Qed.

(** X2: in base 10 [sumOfDigitSquares] maps every number from 100 up to a
    smaller number, which is what keeps the recursion of [isHappy] among
    small numbers. *)
Theorem sumOfDigitSquares10_descends (n : Z) :
  100 <= n -> sumOfDigitSquares 10 n < n.
Proof.
  intros Hn. assert (0 <= n) as Hn0 by lia. revert Hn. pattern n.
  apply Zlt_0_ind; [|exact Hn0]. clear n Hn0. intros n IH _ Hn.
  destruct (Z.lt_ge_cases n 1000) as [Hsmall|Hbig].
  - pose proof descent10_checked as H. rewrite forallb_forall in H.
    specialize (H n ltac:(apply list_elem_of_In, elem_of_seqZ; lia)).
    apply Z.ltb_lt in H. exact H.
  - rewrite sumOfDigitSquares_unfold by lia.
    assert (100 <= n / 10) by (apply Z.div_le_lower_bound; lia).
    assert (n / 10 < n) by (apply Z.div_lt; lia).
    specialize (IH (n / 10) ltac:(lia) ltac:(lia)).
    pose proof (Z.mod_pos_bound n 10 ltac:(lia)).
    pose proof (Z.div_mod n 10 ltac:(lia)).
    assert (0 <= sumOfDigitSquares 10 (n / 10)).
    { rewrite sumOfDigitSquares_digits, squareSum_plain. apply wrap64_range. }
    pose proof (wrap64_le (n mod 10 * (n mod 10)) ltac:(nia)).
    pose proof (wrap64_le (wrap64 (n mod 10 * (n mod 10)) + sumOfDigitSquares 10 (n / 10))
                  ltac:(lia)).
    nia.
Qed.

Lemma sumOfDigitSquares10_descends_witness :
  100 <= 18446744073709551615 /\
  sumOfDigitSquares 10 18446744073709551615 < 18446744073709551615.
Proof.
  split; [lia|]. apply (sumOfDigitSquares10_descends 18446744073709551615). lia.
Defined.

(** Two numbers with the same digits other than 0, in any order, get the
    same counters in [sortDigits]. *)
Lemma count_occ_nonzero_digits (l1 l2 : list Z) d :
  filter (fun d => d <> 0) l1 ≡ₚ filter (fun d => d <> 0) l2 -> 1 <= d ->
  count_occ Z.eq_dec l1 d = count_occ Z.eq_dec l2 d.
Proof.
  intros Hp Hd.
  pose proof (proj1 (Permutation_count_occ Z.eq_dec _ _) Hp d) as H.
  rewrite !count_occ_filter_nonzero in H.
  destruct (Z.eq_dec d 0); [lia|exact H].
Qed.

Lemma sortDigits_same_digits base digits0 n m :
  2 <= base -> 0 <= n -> 0 <= m -> length digits0 = Z.to_nat base ->
  filter (fun d => d <> 0) (digitsOf base n)
    ≡ₚ filter (fun d => d <> 0) (digitsOf base m) ->
  sortDigits base digits0 n = sortDigits base digits0 m.
Proof.
  intros Hb Hn Hm Hlen Hp. unfold sortDigits.
  rewrite !sortDigits_build_emitted. f_equal.
  apply emitted_ext. intros d Hd. f_equal.
  apply counters_same_digits; try assumption.
  intros d' Hd'.
  pose proof (proj1 (Permutation_count_occ Z.eq_dec _ _) Hp d') as H.
  rewrite !count_occ_filter_nonzero in H.
  destruct (Z.eq_dec d' 0); [contradiction|exact H].
Qed.

Lemma sumOfDigitSquares_same_digits base n m :
  filter (fun d => d <> 0) (digitsOf base n)
    ≡ₚ filter (fun d => d <> 0) (digitsOf base m) ->
  sumOfDigitSquares base n = sumOfDigitSquares base m.
Proof.
  intros Hp. rewrite !sumOfDigitSquares_digits.
  rewrite <- (squareSum_filter_nonzero (digitsOf base n)).
  rewrite <- (squareSum_filter_nonzero (digitsOf base m)).
  apply squareSum_permutation. exact Hp.
Qed.

(** X3: two numbers whose digits other than 0 are the same up to order (in
    particular two numbers that are digit permutations of each other) have
    the same [sumOfDigitSquares], and [sortDigits] returns the same on both
    when it starts from the same content of its array of [base] counters,
    whatever that content is. *)
Theorem same_digits_same_canonical (base n m : Z) (digits0 : list Z) :
  2 <= base -> 0 <= n -> 0 <= m -> length digits0 = Z.to_nat base ->
  filter (fun d => d <> 0) (digitsOf base n)
    ≡ₚ filter (fun d => d <> 0) (digitsOf base m) ->
  sumOfDigitSquares base n = sumOfDigitSquares base m /\
  sortDigits base digits0 n = sortDigits base digits0 m.
Proof.
  intros Hb Hn Hm Hlen Hp. split.
  - apply sumOfDigitSquares_same_digits. exact Hp.
  - apply sortDigits_same_digits; assumption.
Qed.

Lemma same_digits_same_canonical_witness :
  2 <= 10 /\ 0 <= 3102 /\ 0 <= 231 /\ length leftover = Z.to_nat 10 /\
  filter (fun d => d <> 0) (digitsOf 10 3102)
    ≡ₚ filter (fun d => d <> 0) (digitsOf 10 231) /\
  sumOfDigitSquares 10 3102 = sumOfDigitSquares 10 231 /\
  sortDigits 10 leftover 3102 = sortDigits 10 leftover 231.
Proof.
  assert (filter (fun d => d <> 0) (digitsOf 10 3102)
            ≡ₚ filter (fun d => d <> 0) (digitsOf 10 231)) as Hp.
  { change ([2; 1; 3] ≡ₚ [1; 3; 2]).
    apply perm_trans with [1; 2; 3]; [apply perm_swap|].
    apply perm_skip, perm_swap. }
  split; [lia|]. split; [lia|]. split; [lia|]. split; [reflexivity|].
  split; [exact Hp|].
  apply (same_digits_same_canonical 10 3102 231 leftover);
    [lia|lia|lia|reflexivity|exact Hp].
Defined.

(** X25: whatever its array of [base] counters holds at the start,
    [sortDigits n] is the number written, modulo 2^64, by going through the
    digits from 1 to [base - 1] in increasing order and appending each digit
    as many times as its counter says, where the counter is what the array
    held for the digit, incremented with the wrap-around of [char] once for
    every occurrence of the digit in [n]; a counter that is 0 or negative
    appends nothing. *)
Theorem sortDigits_counters (base n : Z) (digits0 : list Z) :
  2 <= base -> 0 <= n -> length digits0 = Z.to_nat base ->
  sortDigits base digits0 n
  = fold_left (shiftIn base)
      (emitted base (fun digit =>
         Z.to_nat (Nat.iter (count_occ Z.eq_dec (digitsOf base n) digit)
                     (fun x => wrapChar (x + 1))
                     (default 0 (digits0 !! Z.to_nat (digit - 1)))))) 0.
Proof.
  intros Hb Hn Hlen. unfold sortDigits.
  rewrite sortDigits_build_emitted. f_equal.
  apply emitted_ext. intros d Hd. f_equal.
  rewrite sortDigits_count_digits. fold (digitsOf base n).
  rewrite counters_lookup.
  - replace (Z.of_nat (Z.to_nat (d - 1)) + 1) with d by lia. reflexivity.
  - eapply Forall_impl; [apply digitsOf_range; [exact Hb|exact Hn]|].
    simpl. intros x Hx. lia.
Qed.

Lemma sortDigits_counters_witness :
  2 <= 10 /\ 0 <= 100 /\ length leftover = Z.to_nat 10 /\
  sortDigits 10 leftover 100
  = fold_left (shiftIn 10)
      (emitted 10 (fun digit =>
         Z.to_nat (Nat.iter (count_occ Z.eq_dec (digitsOf 10 100) digit)
                     (fun x => wrapChar (x + 1))
                     (default 0 (leftover !! Z.to_nat (digit - 1)))))) 0.
Proof.
  split; [lia|]. split; [lia|]. split; [reflexivity|].
  apply (sortDigits_counters 10 100 leftover); [lia|lia|reflexivity].
Defined.

(** *** Sorted numbers and [sortDigits] *)

Lemma nonIncreasing_chain prevDigit (ds : list Z) :
  nonIncreasing prevDigit ds = true <->
  StronglySorted (flip Z.le) (prevDigit :: ds).
Proof.
  revert prevDigit. induction ds as [|d ds IH]; intros p; simpl.
  - split; [intros _; repeat constructor|reflexivity].
  - destruct (Z.ltb_spec p d) as [Hlt|Hle].
    + split; [discriminate|]. intros Hs.
      apply StronglySorted_cons in Hs as [Hp _].
      apply Forall_cons in Hp as [Hp _]. unfold flip in Hp. lia.
    + rewrite IH. split.
      * intros Hs. constructor; [exact Hs|].
        apply StronglySorted_cons in Hs as Hs'. destruct Hs' as [Hd _].
        constructor; [exact Hle|].
        eapply Forall_impl; [exact Hd|]. unfold flip. simpl. lia.
      * intros Hs. apply StronglySorted_cons in Hs as [_ Hs]. exact Hs.
Qed.

Lemma areDigitsSorted_chain base n :
  2 <= base -> 0 <= n ->
  areDigitsSorted base n = true <-> StronglySorted (flip Z.le) (digitsOf base n).
Proof.
  intros Hb Hn. rewrite areDigitsSorted_digits, nonIncreasing_chain by assumption.
  split.
  - intros Hs. apply StronglySorted_cons in Hs as [_ Hs]. exact Hs.
  - intros Hs. constructor; [exact Hs|].
    eapply Forall_impl; [apply digitsOf_range; assumption|].
    unfold flip. simpl. lia.
Qed.

(** The most significant digit is not 0, so a number with sorted digits
    has no digit 0 at all. *)
Lemma sorted_digits_positive base n :
  2 <= base -> 0 <= n -> areDigitsSorted base n = true ->
  Forall (fun d => 1 <= d) (digitsOf base n).
Proof.
  intros Hb Hn. pattern n. apply (digit_ind base Hb); [| |exact Hn].
  { intros _. constructor. }
  clear n Hn. intros n Hn IH Hs.
  pose proof (areDigitsSorted_div base n Hb ltac:(lia) Hs) as Hs'.
  specialize (IH Hs').
  apply areDigitsSorted_chain in Hs; [|exact Hb|lia].
  rewrite digitsOf_pos in * by assumption.
  apply StronglySorted_cons in Hs as [Hd _].
  constructor; [|exact IH].
  destruct (digitsOf base (n / base)) as [|d ds] eqn:E.
  - assert (n / base = 0) as Hq.
    { rewrite <- (valueOf_digitsOf base Hb (n / base)), E; [reflexivity|].
      apply Z.div_pos; lia. }
    pose proof (Z.div_mod n base ltac:(lia)).
    pose proof (Z.mod_pos_bound n base ltac:(lia)). nia.
  - apply Forall_cons in Hd as [Hd _]. apply Forall_cons in IH as [IH _].
    unfold flip in Hd. lia.
Qed.

Lemma filter_all {A} (P : A -> Prop) `{!forall x, Decision (P x)} (l : list A) :
  Forall P l -> filter P l = l.
Proof.
  induction 1 as [|x l Hx _ IH]; [reflexivity|].
  rewrite filter_cons_True by exact Hx. rewrite IH. reflexivity.
Qed.

Lemma descending_unique (l1 l2 : list Z) :
  StronglySorted (flip Z.le) l1 -> StronglySorted (flip Z.le) l2 ->
  l1 ≡ₚ l2 -> l1 = l2.
Proof.
  intros H1 H2 Hp. eapply (StronglySorted_unique_strong (flip Z.le)); try eassumption.
  intros x y _ _ Hxy Hyx. unfold flip in *. lia.
Qed.

(** A number with sorted digits is left alone by [sortDigits] when the
    counters start from 0. *)
Lemma sortDigits_fixed base n :
  2 <= base -> 0 <= n < 2 ^ 64 -> areDigitsSorted base n = true ->
  sortDigits base (zeros base) n = n.
Proof.
  intros Hb Hn Hs.
  destruct (sortDigits_digits base Hb n Hn) as (Hval & _ & Hperm & Hsorted & _).
  pose proof (sorted_digits_positive base n Hb ltac:(lia) Hs) as Hpos.
  rewrite filter_all in Hperm
    by (eapply Forall_impl; [exact Hpos|]; simpl; lia).
  apply areDigitsSorted_chain in Hs; [|exact Hb|lia].
  apply descending_unique in Hperm; [|exact Hsorted|exact Hs].
  rewrite Hval, Hperm. apply valueOf_digitsOf; lia.
Qed.

Lemma sortDigits_sorted base n :
  2 <= base -> 0 <= n < 2 ^ 64 ->
  0 <= sortDigits base (zeros base) n <= n /\
  areDigitsSorted base (sortDigits base (zeros base) n) = true.
Proof.
  intros Hb Hn.
  destruct (sortDigits_digits base Hb n Hn) as (Hval & Hdig & _ & Hs & Hr & Hle).
  assert (0 <= sortDigits base (zeros base) n) as H0.
  { rewrite Hval. apply valueOf_nonneg; [exact Hb|].
    eapply Forall_impl; [exact Hr|]. simpl. lia. }
  split; [rewrite Hval in *; lia|].
  rewrite areDigitsSorted_digits, Hdig by assumption.
  apply nonIncreasing_descending; [exact Hs|].
  eapply Forall_impl; [exact Hr|]. simpl. lia.
Qed.

(** X4: for a base from 2 up and a 64-bit [n], when the counters of
    [sortDigits] start from 0, [areDigitsSorted n] holds exactly when
    [sortDigits n] is [n] itself: the numbers the cursor hands out when
    permutations are skipped are then the fixed points of [sortDigits]. *)
Theorem areDigitsSorted_iff_fixed (base n : Z) (digits0 : list Z) :
  2 <= base -> 0 <= n < 2 ^ 64 -> digits0 = zeros base ->
  areDigitsSorted base n = true <-> sortDigits base digits0 n = n.
Proof.
  intros Hb Hn ->. split.
  - apply sortDigits_fixed; assumption.
  - intros Hfix. pose proof (sortDigits_sorted base n Hb Hn) as [_ Hs].
    rewrite Hfix in Hs. exact Hs.
Qed.

Lemma areDigitsSorted_iff_fixed_witness :
  2 <= 10 /\ 0 <= 1348 < 2 ^ 64 /\
  [0; 0; 0; 0; 0; 0; 0; 0; 0; 0] = zeros 10 /\
  (areDigitsSorted 10 1348 = true
   <-> sortDigits 10 [0; 0; 0; 0; 0; 0; 0; 0; 0; 0] 1348 = 1348).
Proof.
  split; [lia|]. split; [lia|]. split; [reflexivity|].
  apply (areDigitsSorted_iff_fixed 10 1348); [lia|lia|reflexivity].
Defined.

(** X5: on 64-bit numbers, two calls of [sortDigits] in a row that both
    find their counters at 0 return what the first call returns. *)
Theorem sortDigits_idempotent (base n : Z) (digits0 digits1 : list Z) :
  2 <= base -> 0 <= n < 2 ^ 64 ->
  digits0 = zeros base -> digits1 = zeros base ->
  sortDigits base digits1 (sortDigits base digits0 n) = sortDigits base digits0 n.
Proof.
  intros Hb Hn -> ->. pose proof (sortDigits_sorted base n Hb Hn) as [Hr Hs].
  apply sortDigits_fixed; [exact Hb|lia|exact Hs].
Qed.

Lemma sortDigits_idempotent_witness :
  2 <= 10 /\ 0 <= 9081726354 < 2 ^ 64 /\
  [0; 0; 0; 0; 0; 0; 0; 0; 0; 0] = zeros 10 /\
  sortDigits 10 [0; 0; 0; 0; 0; 0; 0; 0; 0; 0]
    (sortDigits 10 [0; 0; 0; 0; 0; 0; 0; 0; 0; 0] 9081726354)
  = sortDigits 10 [0; 0; 0; 0; 0; 0; 0; 0; 0; 0] 9081726354.
Proof.
  split; [lia|]. split; [lia|]. split; [reflexivity|].
  apply (sortDigits_idempotent 10 9081726354); [lia|lia|reflexivity|reflexivity].
Defined.

(** X6: for a base from 2 up, [areDigitsSorted n] holds exactly when no
    digit of [n] is smaller than the digit just above it (the digits, least
    significant first, never increase), and then [n] has no digit 0. *)
Theorem areDigitsSorted_spec (base n : Z) :
  2 <= base -> 0 <= n ->
  (areDigitsSorted base n = true <->
   StronglySorted (flip Z.le) (digitsOf base n)) /\
  (areDigitsSorted base n = true -> Forall (fun d => 1 <= d) (digitsOf base n)).
Proof.
  intros Hb Hn. split.
  - apply areDigitsSorted_chain; assumption.
  - apply sorted_digits_positive; assumption.
Qed.

Lemma areDigitsSorted_spec_witness :
  2 <= 10 /\ 0 <= 1348 /\
  (areDigitsSorted 10 1348 = true <->
   StronglySorted (flip Z.le) (digitsOf 10 1348)) /\
  (areDigitsSorted 10 1348 = true -> Forall (fun d => 1 <= d) (digitsOf 10 1348)).
Proof.
  split; [lia|]. split; [lia|]. apply (areDigitsSorted_spec 10 1348); lia.
Defined.

(** ** The recursion of [isHappy] *)

Lemma sortDigits_sum base n :
  2 <= base -> 0 <= n < 2 ^ 64 ->
  sumOfDigitSquares base (sortDigits base (zeros base) n) = sumOfDigitSquares base n.
Proof.
  intros Hb Hn.
  destruct (sortDigits_digits base Hb n Hn) as (_ & Hdig & Hperm & _).
  rewrite !sumOfDigitSquares_digits, Hdig.
  rewrite (squareSum_permutation _ _ Hperm). apply squareSum_filter_nonzero.
Qed.

(** X23: for a base from 2 up and a 64-bit [n], when the counters of
    [sortDigits] start from 0, [sortDigits n] has the same sum of squared
    digits as [n], its digits pass [areDigitsSorted], and it is at most
    [n]. *)
Theorem sortDigits_zeroed (base n : Z) (digits0 : list Z) :
  2 <= base -> 0 <= n < 2 ^ 64 -> digits0 = zeros base ->
  sumOfDigitSquares base (sortDigits base digits0 n) = sumOfDigitSquares base n /\
  areDigitsSorted base (sortDigits base digits0 n) = true /\
  0 <= sortDigits base digits0 n <= n.
Proof.
  intros Hb Hn ->.
  destruct (sortDigits_sorted base n Hb Hn) as [Hle Hs].
  split; [apply sortDigits_sum; assumption|]. split; assumption.
Qed.

Lemma sortDigits_zeroed_witness :
  2 <= 10 /\ 0 <= 9081726354 < 2 ^ 64 /\
  [0; 0; 0; 0; 0; 0; 0; 0; 0; 0] = zeros 10 /\
  sumOfDigitSquares 10 (sortDigits 10 [0; 0; 0; 0; 0; 0; 0; 0; 0; 0] 9081726354)
  = sumOfDigitSquares 10 9081726354 /\
  areDigitsSorted 10 (sortDigits 10 [0; 0; 0; 0; 0; 0; 0; 0; 0; 0] 9081726354)
  = true /\
  0 <= sortDigits 10 [0; 0; 0; 0; 0; 0; 0; 0; 0; 0] 9081726354 <= 9081726354.
Proof.
  split; [lia|]. split; [lia|]. split; [reflexivity|].
  apply (sortDigits_zeroed 10 9081726354); [lia|lia|reflexivity].
Defined.

Lemma sumOfDigitSquares_bounds base n :
  2 <= base <= 127 -> 0 <= n < 2 ^ 64 ->
  0 <= sumOfDigitSquares base n <= 64 * ((base - 1) * (base - 1)) /\
  (1 <= n -> 1 <= sumOfDigitSquares base n).
Proof.
  intros Hb Hn.
  pose proof (digitsOf_range base ltac:(lia) n ltac:(lia)) as Hr.
  pose proof (digitsOf_length_64 base n ltac:(lia) Hn) as Hlen.
  pose proof (plainSum_bounds base _ Hr) as [Hlo Hhi].
  rewrite sumOfDigitSquares_digits, squareSum_plain, wrap64_small by nia.
  split; [nia|]. intros Hpos.
  pose proof (plainSum_pos base _ ltac:(lia) Hr) as Hp.
  rewrite valueOf_digitsOf in Hp by lia. specialize (Hp ltac:(lia)). lia.
Qed.

Lemma childOf_range skipPermutations base n :
  2 <= base <= 127 -> 1 <= n < 2 ^ 64 ->
  1 <= childOf skipPermutations base n <= 64 * ((base - 1) * (base - 1)).
Proof.
  intros Hb Hn.
  pose proof (sumOfDigitSquares_bounds base n Hb ltac:(lia)) as [[_ Hhi] Hlo].
  specialize (Hlo ltac:(lia)).
  unfold childOf. destruct skipPermutations; [|lia].
  assert (0 <= sumOfDigitSquares base n < 2 ^ 64) as Hs by nia.
  pose proof (sortDigits_sorted base _ ltac:(lia) Hs) as [Hle _].
  split; [|lia].
  destruct (Z.eq_dec (sortDigits base (zeros base) (sumOfDigitSquares base n)) 0) as [H0|]; [|lia].
  pose proof (sortDigits_sum base _ ltac:(lia) Hs) as Hsum. rewrite H0 in Hsum.
  pose proof (sumOfDigitSquares_bounds base (sumOfDigitSquares base n) Hb Hs) as [_ Hp].
  specialize (Hp ltac:(lia)). change (sumOfDigitSquares base 0) with 0 in Hsum. lia.
Qed.

(** X7: for a base from 2 to 127 and a 64-bit [n] from 1 up, when
    permutations are not skipped, or the array [sortDigits] is given is
    zero-filled, the number [isHappy] recurses on is again at least 1 and at
    most [64 * (base - 1)^2]: the recursion then never reaches 0 and never
    leaves the 64-bit range. *)
Theorem isHappy_child_range (skipPermutations : bool) (base n : Z)
    (heap : nat -> list Z) (st : state) :
  2 <= base <= 127 -> 1 <= n < 2 ^ 64 ->
  (skipPermutations = true -> heap (allocated st) = zeros base) ->
  1 <= fst (childNumber skipPermutations base heap n st)
    <= 64 * ((base - 1) * (base - 1)).
Proof.
  intros Hb Hn Hz.
  pose proof (childOf_range skipPermutations base n Hb Hn) as H.
  unfold childOf in H. unfold childNumber, sortDigits_alloc.
  destruct skipPermutations; [|exact H]. simpl. rewrite Hz by reflexivity. exact H.
Qed.

Lemma isHappy_child_range_witness :
  2 <= 10 <= 127 /\ 1 <= 18446744073709551615 < 2 ^ 64 /\
  (true = true -> heap_zero (allocated (HnCalculator true)) = zeros 10) /\
  1 <= fst (childNumber true 10 heap_zero 18446744073709551615 (HnCalculator true))
    <= 64 * ((10 - 1) * (10 - 1)).
Proof.
  split; [lia|]. split; [lia|]. split; [reflexivity|].
  apply (isHappy_child_range true 10 18446744073709551615 heap_zero
           (HnCalculator true)); [lia|lia|reflexivity].
Defined.

Lemma emitted_none base : emitted base (fun _ => 0%nat) = [].
Proof.
  unfold emitted. induction (seqZ 1 (base - 1)) as [|d l IH]; [reflexivity|].
  simpl. exact IH.
Qed.

Lemma sortDigits_0 base : sortDigits base (zeros base) 0 = 0.
Proof.
  unfold sortDigits, zeros. simpl sortDigits_count.
  rewrite sortDigits_build_emitted.
  rewrite (emitted_ext base _ (fun _ => 0%nat)).
  - rewrite emitted_none. reflexivity.
  - intros d _.
    destruct (replicate (Z.to_nat base) 0 !! Z.to_nat (d - 1)) as [x|] eqn:E;
      [|reflexivity].
    apply lookup_replicate in E as [-> _]. reflexivity.
Qed.

Lemma childOf_0 skipPermutations base : childOf skipPermutations base 0 = 0.
Proof.
  unfold childOf. change (sumOfDigitSquares base 0) with 0.
  destruct skipPermutations; [apply sortDigits_0|reflexivity].
Qed.

Lemma classify_0 skipPermutations base (fuel : nat) :
  classify skipPermutations base fuel 0 = None.
Proof.
  induction fuel as [|fuel IH]; [reflexivity|].
  simpl. rewrite childOf_0. exact IH.
Qed.

(** X8: when permutations are not skipped, or every array [sortDigits] is
    given is zero-filled, then in every state the calculator can reach a
    call of [isHappy] returns exactly when the iterates without a cache
    reach 1 or 4, and then with the same result: a cache never makes a call
    return that would not return without it. *)
Theorem isHappy_returns_iff (cacheResults skipPermutations : bool) (base : Z)
    (outputResults : bool) (milestoneInc : option Z) (heap : nat -> list Z)
    (st : state) (n : Z) (happy : bool) :
  (skipPermutations = true -> zeroed base heap) ->
  reachable cacheResults skipPermutations base outputResults milestoneInc heap st ->
  (exists fuel st',
     isHappy cacheResults skipPermutations base outputResults heap fuel n st
     = Some (happy, st')) <->
  (exists fuel, classify skipPermutations base fuel n = Some happy).
Proof.
  intros Hz Hr. split.
  - intros (fuel & st' & H). apply (reachable_sound _ _ _ _ _ _ Hz) in Hr.
    exact (proj1 (isHappy_sound _ _ _ _ _ Hz _ _ _ _ _ Hr H)).
  - intros (fuel & Hc).
    destruct (isHappy_reachable _ _ _ _ _ _ Hz fuel n happy st Hr Hc) as [[st' H] _].
    eauto.
Qed.

Lemma isHappy_returns_iff_witness :
  (true = true -> zeroed 10 heap_zero) /\
  reachable true true 10 true None heap_zero (HnCalculator true) /\
  ((exists fuel st',
      isHappy true true 10 true heap_zero fuel 7 (HnCalculator true)
      = Some (true, st')) <->
   (exists fuel, classify true 10 fuel 7 = Some true)).
Proof.
  assert (reachable true true 10 true None heap_zero (HnCalculator true)) as Hr
    by apply rtc_refl.
  assert (true = true -> zeroed 10 heap_zero) as Hz
    by (intros _ k; reflexivity).
  split; [exact Hz|]. split; [exact Hr|].
  exact (isHappy_returns_iff true true 10 true None heap_zero (HnCalculator true)
           7 true Hz Hr).
Defined.

(** X9: when permutations are not skipped, or every array [sortDigits] is
    given is zero-filled, [isHappy(0)] never returns, in any base and in any
    state the calculator can reach: [sumOfDigitSquares(0)] is 0,
    [sortDigits(0)] is then 0 too, and 0 is never cached. *)
Theorem isHappy_0_diverges (cacheResults skipPermutations : bool) (base : Z)
    (outputResults : bool) (milestoneInc : option Z) (heap : nat -> list Z)
    (st : state) (fuel : nat) :
  (skipPermutations = true -> zeroed base heap) ->
  reachable cacheResults skipPermutations base outputResults milestoneInc heap st ->
  isHappy cacheResults skipPermutations base outputResults heap fuel 0 st = None.
Proof.
  intros Hz Hr.
  destruct (isHappy _ _ _ _ _ fuel 0 st) as [[happy st']|] eqn:E; [|reflexivity].
  apply (reachable_sound _ _ _ _ _ _ Hz) in Hr.
  destruct (proj1 (isHappy_sound _ _ _ _ _ Hz _ _ _ _ _ Hr E)) as [f Hf].
  rewrite classify_0 in Hf. discriminate Hf.
Qed.

Lemma isHappy_0_diverges_witness :
  (true = true -> zeroed 10 heap_zero) /\
  reachable true true 10 true None heap_zero (HnCalculator true) /\
  isHappy true true 10 true heap_zero 50 0 (HnCalculator true) = None.
Proof.
  assert (reachable true true 10 true None heap_zero (HnCalculator true)) as Hr
    by apply rtc_refl.
  assert (true = true -> zeroed 10 heap_zero) as Hz
    by (intros _ k; reflexivity).
  split; [exact Hz|]. split; [exact Hr|].
  exact (isHappy_0_diverges true true 10 true None heap_zero (HnCalculator true)
           50 Hz Hr).
Defined.

(** ** Skipping permutations is sound in base 10 *)

Lemma classify_unfold skipPermutations base (fuel : nat) n :
  n <> 1 -> n <> 4 ->
  classify skipPermutations base (S fuel) n
  = classify skipPermutations base fuel (childOf skipPermutations base n).
Proof.
  intros H1 H4. simpl.
  destruct (Z.eqb_spec n 1); [contradiction|].
  destruct (Z.eqb_spec n 4); [contradiction|]. reflexivity.
Qed.

Lemma sortDigits10_range n :
  1 <= n < 2 ^ 64 -> 1 <= sortDigits 10 (zeros 10) n <= n.
Proof.
  intros Hn. pose proof (sortDigits_sorted 10 n ltac:(lia) ltac:(lia)) as [Hr _].
  split; [|lia].
  destruct (Z.eq_dec (sortDigits 10 (zeros 10) n) 0) as [H0|]; [|lia].
  pose proof (sortDigits_sum 10 n ltac:(lia) ltac:(lia)) as Hsum.
  rewrite H0 in Hsum. pose proof (sumOfDigitSquares10_range n Hn).
  change (sumOfDigitSquares 10 0) with 0 in Hsum. lia.
Qed.

(** Classification without a cache gives [n] and [sortDigits n], with
    counters that start from 0, the same result. *)
Lemma classify10_sortDigits skipPermutations n :
  1 <= n < 2 ^ 64 ->
  classify skipPermutations 10 17 (sortDigits 10 (zeros 10) n)
  = classify skipPermutations 10 17 n.
Proof.
  intros Hn.
  pose proof (sortDigits_sum 10 n ltac:(lia) ltac:(lia)) as Hsum.
  destruct (Z.eq_dec n 1) as [->|H1]; [reflexivity|].
  destruct (Z.eq_dec n 4) as [->|H4]; [reflexivity|].
  rewrite (classify_unfold _ _ 16 n) by assumption.
  destruct (Z.eq_dec (sortDigits 10 (zeros 10) n) 1) as [E1|E1].
  { rewrite E1 in *. unfold childOf. rewrite <- Hsum.
    destruct skipPermutations; reflexivity. }
  destruct (Z.eq_dec (sortDigits 10 (zeros 10) n) 4) as [E4|E4].
  { rewrite E4 in *. unfold childOf. rewrite <- Hsum.
    destruct skipPermutations; reflexivity. }
  rewrite classify_unfold by assumption.
  unfold childOf. rewrite Hsum. reflexivity.
Qed.

Lemma classify10_same_digits skipPermutations n m :
  1 <= n < 2 ^ 64 -> 1 <= m < 2 ^ 64 ->
  filter (fun d => d <> 0) (digitsOf 10 n)
    ≡ₚ filter (fun d => d <> 0) (digitsOf 10 m) ->
  classify skipPermutations 10 17 n = classify skipPermutations 10 17 m.
Proof.
  intros Hn Hm Hp.
  rewrite <- (classify10_sortDigits _ n Hn), <- (classify10_sortDigits _ m Hm).
  rewrite (sortDigits_same_digits 10 (zeros 10) n m);
    [reflexivity|lia|lia|lia|reflexivity|exact Hp].
Qed.

(** X10: in base 10, when permutations are not skipped, or every array
    [sortDigits] is given is zero-filled, then for every 64-bit [n] from 1
    up and every state the calculator can reach, [isHappy] returns the same
    boolean on [n] and on the number [sortDigits n] that the digits of [n]
    sort to; so the numbers the cursor skips are then classified like the
    ones it hands out. *)
Theorem isHappy_sortDigits (cacheResults skipPermutations outputResults : bool)
    (milestoneInc : option Z) (heap : nat -> list Z) (st : state) (n : Z) :
  1 <= n < 2 ^ 64 ->
  (skipPermutations = true -> zeroed 10 heap) ->
  reachable cacheResults skipPermutations 10 outputResults milestoneInc heap st ->
  exists happy st1 st2,
    isHappy cacheResults skipPermutations 10 outputResults heap 17 n st
    = Some (happy, st1) /\
    isHappy cacheResults skipPermutations 10 outputResults heap 17
      (sortDigits 10 (zeros 10) n) st
    = Some (happy, st2).
Proof.
  intros Hn Hz Hr. destruct (classify10_total n Hn) as [b Hb].
  specialize (Hb skipPermutations).
  pose proof (classify10_sortDigits skipPermutations n Hn) as Hs. rewrite Hb in Hs.
  destruct (isHappy_reachable _ _ _ _ _ _ Hz _ _ _ _ Hr Hb) as [[st1 H1] _].
  destruct (isHappy_reachable _ _ _ _ _ _ Hz _ _ _ _ Hr Hs) as [[st2 H2] _].
  eauto.
Qed.

Lemma isHappy_sortDigits_witness :
  1 <= 91 < 2 ^ 64 /\
  (true = true -> zeroed 10 heap_zero) /\
  reachable true true 10 true None heap_zero (HnCalculator true) /\
  exists happy st1 st2,
    isHappy true true 10 true heap_zero 17 91 (HnCalculator true)
    = Some (happy, st1) /\
    isHappy true true 10 true heap_zero 17 (sortDigits 10 (zeros 10) 91)
      (HnCalculator true)
    = Some (happy, st2).
Proof.
  assert (reachable true true 10 true None heap_zero (HnCalculator true)) as Hr
    by apply rtc_refl.
  assert (true = true -> zeroed 10 heap_zero) as Hz
    by (intros _ k; reflexivity).
  split; [lia|]. split; [exact Hz|]. split; [exact Hr|].
  apply (isHappy_sortDigits true true true None heap_zero (HnCalculator true) 91);
    [lia|exact Hz|exact Hr].
Defined.

(** X11: in base 10, when permutations are not skipped, or every array
    [sortDigits] is given is zero-filled, two 64-bit numbers from 1 up whose
    digits other than 0 are the same up to order (in particular two digit
    permutations of each other) get the same boolean from [isHappy], in
    every state the calculator can reach. *)
Theorem isHappy_same_digits (cacheResults skipPermutations outputResults : bool)
    (milestoneInc : option Z) (heap : nat -> list Z) (st : state) (n m : Z) :
  1 <= n < 2 ^ 64 -> 1 <= m < 2 ^ 64 ->
  filter (fun d => d <> 0) (digitsOf 10 n)
    ≡ₚ filter (fun d => d <> 0) (digitsOf 10 m) ->
  (skipPermutations = true -> zeroed 10 heap) ->
  reachable cacheResults skipPermutations 10 outputResults milestoneInc heap st ->
  exists happy st1 st2,
    isHappy cacheResults skipPermutations 10 outputResults heap 17 n st
    = Some (happy, st1) /\
    isHappy cacheResults skipPermutations 10 outputResults heap 17 m st
    = Some (happy, st2).
Proof.
  intros Hn Hm Hp Hz Hr. destruct (classify10_total n Hn) as [b Hb].
  specialize (Hb skipPermutations).
  pose proof (classify10_same_digits skipPermutations n m Hn Hm Hp) as Hs.
  rewrite Hb in Hs. symmetry in Hs.
  destruct (isHappy_reachable _ _ _ _ _ _ Hz _ _ _ _ Hr Hb) as [[st1 H1] _].
  destruct (isHappy_reachable _ _ _ _ _ _ Hz _ _ _ _ Hr Hs) as [[st2 H2] _].
  eauto.
Qed.

Lemma isHappy_same_digits_witness :
  1 <= 3102 < 2 ^ 64 /\ 1 <= 231 < 2 ^ 64 /\
  filter (fun d => d <> 0) (digitsOf 10 3102)
    ≡ₚ filter (fun d => d <> 0) (digitsOf 10 231) /\
  (true = true -> zeroed 10 heap_zero) /\
  reachable true true 10 true None heap_zero (HnCalculator true) /\
  exists happy st1 st2,
    isHappy true true 10 true heap_zero 17 3102 (HnCalculator true)
    = Some (happy, st1) /\
    isHappy true true 10 true heap_zero 17 231 (HnCalculator true)
    = Some (happy, st2).
Proof.
  assert (reachable true true 10 true None heap_zero (HnCalculator true)) as Hr
    by apply rtc_refl.
  assert (true = true -> zeroed 10 heap_zero) as Hz
    by (intros _ k; reflexivity).
  assert (filter (fun d => d <> 0) (digitsOf 10 3102)
            ≡ₚ filter (fun d => d <> 0) (digitsOf 10 231)) as Hp.
  { change ([2; 1; 3] ≡ₚ [1; 3; 2]).
    apply perm_trans with [1; 2; 3]; [apply perm_swap|].
    apply perm_skip, perm_swap. }
  split; [lia|]. split; [lia|]. split; [exact Hp|]. split; [exact Hz|].
  split; [exact Hr|].
  apply (isHappy_same_digits true true true None heap_zero (HnCalculator true)
           3102 231); [lia|lia|exact Hp|exact Hz|exact Hr].
Defined.

(** X24: in base 10, for every 64-bit number [n] from 1 up there is one
    boolean that [isHappy] returns on [n], within 17 nested calls, under
    all settings of [cacheResults] and [skipPermutations] and in every
    state the calculator can reach, as long as permutations are not skipped
    or every array [sortDigits] is given is zero-filled. *)
Theorem isHappy_zeroed_agree (n : Z) :
  1 <= n < 2 ^ 64 ->
  exists b : bool,
    forall (cacheResults skipPermutations outputResults : bool)
           (milestoneInc : option Z) (heap : nat -> list Z) (st : state),
      (skipPermutations = true -> zeroed 10 heap) ->
      reachable cacheResults skipPermutations 10 outputResults milestoneInc heap st ->
      (exists st',
         isHappy cacheResults skipPermutations 10 outputResults heap 17 n st
         = Some (b, st')) /\
      (forall fuel happy st',
         isHappy cacheResults skipPermutations 10 outputResults heap fuel n st
         = Some (happy, st') -> happy = b).
Proof.
  intros Hn. destruct (classify10_total n Hn) as [b Hb]. exists b.
  intros cacheResults skipPermutations outputResults milestoneInc heap st Hz Hr.
  exact (isHappy_reachable _ _ _ _ _ _ Hz _ _ _ _ Hr (Hb skipPermutations)).
Qed.

Lemma isHappy_zeroed_agree_witness :
  1 <= 19 < 2 ^ 64 /\
  exists b : bool,
    forall (cacheResults skipPermutations outputResults : bool)
           (milestoneInc : option Z) (heap : nat -> list Z) (st : state),
      (skipPermutations = true -> zeroed 10 heap) ->
      reachable cacheResults skipPermutations 10 outputResults milestoneInc heap st ->
      (exists st',
         isHappy cacheResults skipPermutations 10 outputResults heap 17 19 st
         = Some (b, st')) /\
      (forall fuel happy st',
         isHappy cacheResults skipPermutations 10 outputResults heap fuel 19 st
         = Some (happy, st') -> happy = b).
Proof.
  split; [lia|]. apply (isHappy_zeroed_agree 19). lia.
Defined.

(** ** Cache, output and cursor of one calculator *)

Section Calculator.

Variable cacheResults : bool.
Variable skipPermutations : bool.
Variable base : Z.
Variable outputResults : bool.
Variable milestoneInc : option Z.
Variable heap : nat -> list Z.

Local Abbreviation isHappy' :=
  (isHappy cacheResults skipPermutations base outputResults heap).
Local Abbreviation newResult' := (newResult cacheResults outputResults).
Local Abbreviation classify' := (classify skipPermutations base).
Local Abbreviation loop' := (getNextNumber_loop skipPermutations base milestoneInc).
Local Abbreviation step' :=
  (step cacheResults skipPermutations base outputResults milestoneInc heap).
Local Abbreviation reachable' :=
  (reachable cacheResults skipPermutations base outputResults milestoneInc heap).

Lemma out_newResult n happy st :
  out (newResult' n happy st)
  = if outputResults then out st ++ [Result n happy] else out st.
Proof. unfold newResult. destruct outputResults, cacheResults; reflexivity. Qed.

(** What one call of [isHappy] leaves alone and what it prints. *)
Lemma isHappy_frame (fuel : nat) n st happy st' :
  isHappy' fuel n st = Some (happy, st') ->
  nextNumber st' = nextNumber st /\ lastMilestone st' = lastMilestone st /\
  exists ks, out st' = out st ++ map (fun k => Result k happy) ks /\
             (outputResults = false -> ks = []).
Proof.
  revert n st happy st'. induction fuel as [|fuel IH]; intros n st happy st' H;
    [discriminate|].
  apply isHappy_cases in H
    as [(_ & _ & ->)|[(_ & _ & _ & ->)|[(_ & _ & _ & ->)|(_ & _ & _ & st1 & H & ->)]]];
    try (split; [reflexivity|]; split; [reflexivity|]; exists [];
         rewrite app_nil_r; split; reflexivity).
  apply IH in H as (Hn & Hl & ks & Ho & Hks).
  rewrite childNumber_nextNumber in Hn. rewrite childNumber_lastMilestone in Hl.
  rewrite childNumber_out in Ho.
  split; [|split].
  - rewrite <- Hn. unfold newResult. destruct outputResults, cacheResults; reflexivity.
  - rewrite <- Hl. unfold newResult. destruct outputResults, cacheResults; reflexivity.
  - rewrite out_newResult, Ho. destruct outputResults.
    + exists (ks ++ [n]). rewrite map_app, app_assoc. split; [reflexivity|discriminate].
    + exists ks. split; [reflexivity|exact Hks].
Qed.

(** What one call of [getNextNumber] leaves alone and what it prints. *)
Lemma getNextNumber_loop_frame (fuel : nat) i st r st' :
  loop' fuel i st = Some (r, st') ->
  cache st' = cache st /\ nextNumber st' = wrap64 (r + 1) /\
  (out st' = out st \/ exists m, out st' = out st ++ [Milestone m]).
Proof.
  revert i. induction fuel as [|fuel IH]; intros i; simpl; [discriminate|].
  destruct (negb skipPermutations || areDigitsSorted base i); [|apply IH].
  intros [= <- <-]. unfold announce. destruct milestoneInc as [inc|]; simpl; auto.
  destruct (_ <? _); simpl; eauto.
Qed.

Lemma isHappy_cache_disabled (fuel : nat) n st happy st' :
  cacheResults = false -> isHappy' fuel n st = Some (happy, st') ->
  cache st' = cache st.
Proof.
  intros Hc. revert n st happy st'.
  induction fuel as [|fuel IH]; intros n st happy st' H; [discriminate|].
  apply isHappy_cases in H
    as [(_ & _ & ->)|[(_ & _ & _ & ->)|[(_ & _ & _ & ->)|(_ & _ & _ & st1 & H & ->)]]];
    try reflexivity.
  rewrite cache_newResult, Hc. apply IH in H. rewrite childNumber_cache in H.
  exact H.
Qed.

(** *** What the printed lines say *)

Section Lines.

Hypothesis ideal : skipPermutations = true -> zeroed base heap.

Lemma isHappy_lines_sound (fuel : nat) n st happy st' :
  cache_sound skipPermutations base st -> lines_sound skipPermutations base st ->
  isHappy' fuel n st = Some (happy, st') -> lines_sound skipPermutations base st'.
Proof.
  revert n st happy st'.
  induction fuel as [|fuel IH]; intros n st happy st' Hs Hl H; [discriminate|].
  apply isHappy_cases in H
    as [(_ & _ & ->)|[(_ & _ & _ & ->)|[(_ & _ & _ & ->)|(_ & H1 & H4 & st1 & H & ->)]]];
    try exact Hl.
  assert (cache_sound skipPermutations base
            (snd (childNumber skipPermutations base heap n st))) as Hs'
    by (unfold cache_sound; rewrite childNumber_cache; exact Hs).
  assert (lines_sound skipPermutations base
            (snd (childNumber skipPermutations base heap n st))) as Hl'
    by (unfold lines_sound; rewrite childNumber_out; exact Hl).
  pose proof (isHappy_sound _ _ _ _ _ ideal _ _ _ _ _ Hs' H) as [[f Hf] _].
  rewrite (childNumber_ideal _ _ _ ideal) in Hf.
  specialize (IH _ _ _ _ Hs' Hl' H). intros k b. rewrite out_newResult.
  destruct outputResults; [|apply IH].
  intros Hin. apply in_app_or in Hin as [Hin|[[= <- <-]|[]]]; [apply IH; exact Hin|].
  exists (S f). rewrite classify_unfold by assumption. exact Hf.
Qed.

End Lines.

Lemma isHappy_lines_cached (fuel : nat) n st happy st' :
  cacheResults = true -> lines_cached st ->
  isHappy' fuel n st = Some (happy, st') -> lines_cached st'.
Proof.
  intros Hc. revert n st happy st'.
  induction fuel as [|fuel IH]; intros n st happy st' Hl H; [discriminate|].
  apply isHappy_cases in H
    as [(_ & _ & ->)|[(_ & _ & _ & ->)|[(_ & _ & _ & ->)|(C & H1 & H4 & st1 & H & ->)]]];
    try exact Hl.
  apply isCached_false in C; [|exact Hc].
  pose proof (isHappy_cache_grows _ _ _ _ _ _ _ _ _ _ H n) as Hgrow.
  rewrite childNumber_cache in Hgrow.
  assert (lines_cached (snd (childNumber skipPermutations base heap n st))) as Hl'
    by (unfold lines_cached; rewrite childNumber_out, childNumber_cache; exact Hl).
  specialize (IH _ _ _ _ Hl' H). intros k b.
  rewrite out_newResult, cache_newResult, Hc, emplace_lookup.
  assert (In (Result k b) (out st1) ->
          match cache st1 !! k with
          | Some w => Some w
          | None => if decide (n = k) then Some happy else None
          end = Some b) as Hold.
  { intros Hin. rewrite (IH _ _ Hin). reflexivity. }
  destruct outputResults; [|exact Hold].
  intros Hin. apply in_app_or in Hin as [Hin|[[= <- <-]|[]]]; [exact (Hold Hin)|].
  destruct Hgrow as [Heq|[_ Hn]].
  - rewrite Heq, C. destruct (decide (n = n)); congruence.
  - rewrite Hn. reflexivity.
Qed.

Lemma getNextNumber_loop_lines (fuel : nat) i st r st' k b :
  loop' fuel i st = Some (r, st') ->
  In (Result k b) (out st') -> In (Result k b) (out st).
Proof.
  intros H Hin. apply getNextNumber_loop_frame in H as (_ & _ & [Ho|[m Ho]]);
    rewrite Ho in Hin; [exact Hin|].
  apply in_app_or in Hin as [Hin|[Hin|[]]]; [exact Hin|discriminate Hin].
Qed.

(** The invariants of the printed lines hold in every reachable state. *)
Lemma reachable_lines st :
  (skipPermutations = true -> zeroed base heap) ->
  reachable' st ->
  lines_sound skipPermutations base st /\ (cacheResults = true -> lines_cached st).
Proof.
  intros ideal Hr.
  assert (forall s, rtc step' (HnCalculator cacheResults) s ->
            cache_sound skipPermutations base s /\
            lines_sound skipPermutations base s /\
            (cacheResults = true -> lines_cached s)) as Hall.
  { apply rtc_ind_r; [|intros s1 s2 _ Hstep (Hs & Hl & Hc)].
    - split; [apply (reachable_sound cacheResults skipPermutations base
                       outputResults milestoneInc heap ideal); apply rtc_refl|].
      split; [intros k b []|intros _ k b []].
    - destruct Hstep as [fuel n happy s s' H|fuel i s s' H].
      + split; [exact (proj2 (isHappy_sound _ _ _ _ _ ideal _ _ _ _ _ Hs H))|].
        split; [exact (isHappy_lines_sound ideal _ _ _ _ _ Hs Hl H)|].
        intros Hcr. eapply isHappy_lines_cached; eauto.
      + pose proof (getNextNumber_loop_frame _ _ _ _ _ H) as (Hcache & _ & _).
        split; [unfold cache_sound; rewrite Hcache; exact Hs|].
        split.
        * intros k b Hin. apply Hl. eapply getNextNumber_loop_lines; eassumption.
        * intros Hcr k b Hin. rewrite Hcache. apply (Hc Hcr).
          eapply getNextNumber_loop_lines; eassumption. }
  destruct (Hall st Hr) as (_ & Hl & Hc). split; assumption.
Qed.

Lemma isHappy_more_fuel (f1 f2 : nat) n st r :
  (f1 <= f2)%nat -> isHappy' f1 n st = Some r -> isHappy' f2 n st = Some r.
Proof.
  revert f2 n st r.
  induction f1 as [|f1 IH]; intros f2 n st r Hle H; [discriminate|].
  destruct f2 as [|f2]; [lia|]. simpl in *.
  destruct (isCached cacheResults n st); [exact H|].
  destruct (n =? 1); [exact H|]. destruct (n =? 4); [exact H|].
  destruct (childNumber skipPermutations base heap n st) as [c st0].
  destruct (isHappy' f1 c st0) as [[h st1]|] eqn:E; [|discriminate].
  rewrite (IH f2 _ _ _ ltac:(lia) E). exact H.
Qed.

(** A call adds at most one cache entry per level of its recursion. *)
Lemma isHappy_cache_size (fuel : nat) n st happy st' :
  isHappy' fuel n st = Some (happy, st') ->
  (size (cache st') + 1 <= size (cache st) + fuel)%nat.
Proof.
  revert n st happy st'. induction fuel as [|fuel IH]; intros n st happy st' H;
    [discriminate|].
  apply isHappy_cases in H
    as [(_ & _ & ->)|[(_ & _ & _ & ->)|[(_ & _ & _ & ->)|(_ & _ & _ & st1 & H & ->)]]];
    try lia.
  apply IH in H. rewrite childNumber_cache in H. rewrite cache_newResult.
  destruct cacheResults; [|lia]. unfold emplace.
  destruct (cache st1 !! n) eqn:E; [lia|].
  rewrite map_size_insert_None by exact E. lia.
Qed.

Lemma reachable_cache_disabled st :
  cacheResults = false -> reachable' st -> cache st = ∅.
Proof.
  intros Hc Hr. unfold reachable in Hr. revert st Hr.
  apply rtc_ind_r; [|intros s1 s2 _ [fuel n happy s s' H|fuel i s s' H] IH].
  - unfold HnCalculator. rewrite Hc. reflexivity.
  - rewrite (isHappy_cache_disabled _ _ _ _ _ Hc H). exact IH.
  - apply getNextNumber_loop_frame in H as (-> & _). exact IH.
Qed.

End Calculator.



(** X13: when permutations are not skipped, or every array [sortDigits]
    is given is zero-filled, then in every state the calculator can reach
    every result line printed so far is right: a line "k is happy" (or "k
    is not happy") is what classification of [k] without a cache gives, and
    with caching enabled the cache holds the same value for [k]. *)
Theorem printed_results_sound (cacheResults skipPermutations : bool) (base : Z)
    (outputResults : bool) (milestoneInc : option Z) (heap : nat -> list Z)
    (st : state) (k : Z) (b : bool) :
  (skipPermutations = true -> zeroed base heap) ->
  reachable cacheResults skipPermutations base outputResults milestoneInc heap st ->
  In (Result k b) (out st) ->
  (exists fuel, classify skipPermutations base fuel k = Some b) /\
  (cacheResults = true -> cache st !! k = Some b).
Proof.
  intros Hz Hr Hin. destruct (reachable_lines _ _ _ _ _ _ _ Hz Hr) as [Hl Hc].
  split; [apply Hl; exact Hin|]. intros Hcr. apply (Hc Hcr). exact Hin.
Qed.

Lemma printed_results_sound_witness :
  exists st,
    (true = true -> zeroed 10 heap_zero) /\
    reachable true true 10 true None heap_zero st /\
    In (Result 19 true) (out st) /\
    (exists fuel, classify true 10 fuel 19 = Some true) /\
    (true = true -> cache st !! 19 = Some true).
Proof.
  destruct (isHappy true true 10 true heap_zero 17 19 (HnCalculator true))
    as [[happy st]|] eqn:E; [|vm_compute in E; discriminate E].
  assert (reachable true true 10 true None heap_zero st) as Hr.
  { eapply rtc_once, step_isHappy. exact E. }
  assert (In (Result 19 true) (out st)) as Hin.
  { vm_compute in E. injection E as _ <-. simpl. tauto. }
  assert (true = true -> zeroed 10 heap_zero) as Hz
    by (intros _ j; reflexivity).
  exists st. split; [exact Hz|]. split; [exact Hr|]. split; [exact Hin|].
  exact (printed_results_sound true true 10 true None heap_zero st 19 true Hz Hr Hin).
Defined.

(** X14: with caching disabled the cache stays empty in every state the
    calculator can reach (the constructor does not seed it and [newResult]
    does not write to it). *)
Theorem cache_disabled_empty (skipPermutations : bool) (base : Z)
    (outputResults : bool) (milestoneInc : option Z) (heap : nat -> list Z)
    (st : state) :
  reachable false skipPermutations base outputResults milestoneInc heap st ->
  cache st = ∅.
Proof. intros Hr. eapply reachable_cache_disabled; [reflexivity|exact Hr]. Qed.

Lemma cache_disabled_empty_witness :
  exists st,
    reachable false true 10 true None heap_zero st /\
    (exists happy, isHappy false true 10 true heap_zero 17 19 (HnCalculator false)
                   = Some (happy, st)) /\
    cache st = ∅.
Proof.
  destruct (isHappy false true 10 true heap_zero 17 19 (HnCalculator false))
    as [[happy st]|] eqn:E; [|vm_compute in E; discriminate E].
  assert (reachable false true 10 true None heap_zero st) as Hr.
  { eapply rtc_once, step_isHappy. exact E. }
  exists st. split; [exact Hr|]. split; [eauto|].
  exact (cache_disabled_empty true 10 true None heap_zero st Hr).
Defined.

(** X15: a call of [isHappy] leaves the cursor ([nextNumber] and
    [lastMilestone]) alone and prints only result lines, all of them with
    the value it returns, and none when [outputResults] is off. *)
Theorem isHappy_leaves_cursor (cacheResults skipPermutations : bool) (base : Z)
    (outputResults : bool) (heap : nat -> list Z) (fuel : nat) (n : Z)
    (st : state) (happy : bool) (st' : state) :
  isHappy cacheResults skipPermutations base outputResults heap fuel n st
  = Some (happy, st') ->
  nextNumber st' = nextNumber st /\ lastMilestone st' = lastMilestone st /\
  exists ks, out st' = out st ++ map (fun k => Result k happy) ks /\
             (outputResults = false -> ks = []).
Proof. apply isHappy_frame. Qed.

Lemma isHappy_leaves_cursor_witness :
  exists happy st',
    isHappy true true 10 true heap_zero 17 19 (HnCalculator true) = Some (happy, st') /\
    nextNumber st' = nextNumber (HnCalculator true) /\
    lastMilestone st' = lastMilestone (HnCalculator true) /\
    exists ks, out st' = out (HnCalculator true) ++ map (fun k => Result k happy) ks /\
               (true = false -> ks = []).
Proof.
  destruct (isHappy true true 10 true heap_zero 17 19 (HnCalculator true))
    as [[happy st']|] eqn:E; [|vm_compute in E; discriminate E].
  exists happy, st'. split; [reflexivity|].
  exact (isHappy_leaves_cursor true true 10 true heap_zero 17 19 (HnCalculator true)
           happy st' E).
Defined.

(** X16: a call of [getNextNumber] leaves the cache alone, sets
    [nextNumber] to the number after the one it returns (modulo 2^64), and
    prints at most one line, a milestone. *)
Theorem getNextNumber_leaves_cache (skipPermutations : bool) (base : Z)
    (milestoneInc : option Z) (fuel : nat) (st : state) (i : Z) (st' : state) :
  getNextNumber skipPermutations base milestoneInc fuel st = Some (i, st') ->
  cache st' = cache st /\ nextNumber st' = wrap64 (i + 1) /\
  (out st' = out st \/ exists m, out st' = out st ++ [Milestone m]).
Proof. apply getNextNumber_loop_frame. Qed.

Lemma getNextNumber_leaves_cache_witness :
  exists i st',
    getNextNumber true 10 (Some 1) 5 (set_nextNumber 10 (HnCalculator true))
    = Some (i, st') /\
    cache st' = cache (set_nextNumber 10 (HnCalculator true)) /\
    nextNumber st' = wrap64 (i + 1) /\
    (out st' = out (set_nextNumber 10 (HnCalculator true)) \/
     exists m, out st' = out (set_nextNumber 10 (HnCalculator true)) ++ [Milestone m]).
Proof.
  destruct (getNextNumber true 10 (Some 1) 5 (set_nextNumber 10 (HnCalculator true)))
    as [[i st']|] eqn:E; [|vm_compute in E; discriminate E].
  exists i, st'. split; [reflexivity|].
  exact (getNextNumber_leaves_cache true 10 (Some 1) 5 _ i st' E).
Defined.

Lemma childOf10_range skipPermutations n :
  1 <= n < 2 ^ 64 -> 1 <= childOf skipPermutations 10 n <= 1620.
Proof.
  intros Hn. pose proof (sumOfDigitSquares10_range n Hn) as Hs.
  unfold childOf. destruct skipPermutations; [|exact Hs].
  pose proof (sortDigits10_range (sumOfDigitSquares 10 n) ltac:(lia)). lia.
Qed.

Lemma isHappy10_new_keys cacheResults skipPermutations outputResults heap
    (fuel : nat) n st happy st' k :
  (skipPermutations = true -> zeroed 10 heap) ->
  1 <= n < 2 ^ 64 ->
  isHappy cacheResults skipPermutations 10 outputResults heap fuel n st
  = Some (happy, st') ->
  is_Some (cache st' !! k) ->
  is_Some (cache st !! k) \/ k = n \/ 1 <= k <= 1620.
Proof.
  intros Hz. revert n st st'.
  induction fuel as [|fuel IH]; intros n st st' Hn H Hk; [discriminate|].
  apply isHappy_cases in H
    as [(_ & _ & ->)|[(_ & _ & _ & ->)|[(_ & _ & _ & ->)|(_ & _ & _ & st1 & H & ->)]]];
    auto.
  rewrite (childNumber_ideal _ _ _ Hz) in H.
  pose proof (childOf10_range skipPermutations n Hn) as Hc.
  assert (1 <= childOf skipPermutations 10 n < 2 ^ 64) as Hc' by lia.
  specialize (IH _ _ _ Hc' H). rewrite childNumber_cache in IH.
  rewrite cache_newResult in Hk. destruct cacheResults.
  - rewrite emplace_lookup in Hk.
    destruct (cache st1 !! k) as [w|] eqn:E.
    + destruct (IH ltac:(eauto)) as [Ho|[->|Hr]];
        [left; exact Ho|right; right; exact Hc|right; right; exact Hr].
    + destruct (decide (n = k)) as [<-|]; [auto|]. destruct Hk as [? Hk]. discriminate Hk.
  - destruct (IH Hk) as [Ho|[->|Hr]];
      [left; exact Ho|right; right; exact Hc|right; right; exact Hr].
Qed.

(** X17: in base 10, when permutations are not skipped, or every array
    [sortDigits] is given is zero-filled, a call of [isHappy] on a 64-bit
    [n] from 1 up adds to the cache at most [n] itself and numbers between 1
    and 1620, and at most 16 entries in all. *)
Theorem isHappy10_cache_growth (cacheResults skipPermutations outputResults : bool)
    (heap : nat -> list Z) (fuel : nat) (n : Z) (st : state) (happy : bool)
    (st' : state) :
  (skipPermutations = true -> zeroed 10 heap) ->
  1 <= n < 2 ^ 64 ->
  isHappy cacheResults skipPermutations 10 outputResults heap fuel n st
  = Some (happy, st') ->
  (forall k, is_Some (cache st' !! k) ->
             is_Some (cache st !! k) \/ k = n \/ 1 <= k <= 1620) /\
  (size (cache st') <= size (cache st) + 16)%nat.
Proof.
  intros Hz Hn H. split.
  - intros k. eapply isHappy10_new_keys; eassumption.
  - destruct (classify10_total n Hn) as [b Hb]. specialize (Hb skipPermutations).
    destruct (isHappy_returns cacheResults _ _ outputResults heap Hz _ _ _ st Hb)
      as (h17 & st17 & H17).
    pose proof (isHappy_cache_size _ _ _ _ _ _ _ _ _ _ H17) as Hsize.
    assert (isHappy cacheResults skipPermutations 10 outputResults heap
              (Nat.max fuel 17) n st = Some (happy, st')) as Ha
      by (eapply isHappy_more_fuel; [|exact H]; lia).
    assert (isHappy cacheResults skipPermutations 10 outputResults heap
              (Nat.max fuel 17) n st = Some (h17, st17)) as Hb'
      by (eapply isHappy_more_fuel; [|exact H17]; lia).
    rewrite Ha in Hb'. injection Hb' as _ <-. lia.
Qed.

Lemma isHappy10_cache_growth_witness :
  exists happy st',
    (true = true -> zeroed 10 heap_zero) /\
    1 <= 18446744073709551615 < 2 ^ 64 /\
    isHappy true true 10 true heap_zero 17 18446744073709551615 (HnCalculator true)
    = Some (happy, st') /\
    (forall k, is_Some (cache st' !! k) ->
               is_Some (cache (HnCalculator true) !! k) \/
               k = 18446744073709551615 \/ 1 <= k <= 1620) /\
    (size (cache st') <= size (cache (HnCalculator true)) + 16)%nat.
Proof.
  destruct (isHappy true true 10 true heap_zero 17 18446744073709551615
              (HnCalculator true))
    as [[happy st']|] eqn:E; [|vm_compute in E; discriminate E].
  assert (true = true -> zeroed 10 heap_zero) as Hz
    by (intros _ j; reflexivity).
  exists happy, st'. split; [exact Hz|]. split; [lia|]. split; [reflexivity|].
  apply (isHappy10_cache_growth true true true heap_zero 17 18446744073709551615
           (HnCalculator true) happy st'); [exact Hz|lia|exact E].
Defined.

(** ** One call of [getNextNumber] *)

Lemma scan_total skipPermutations base milestoneInc (k : nat) i st :
  0 <= i -> i + Z.of_nat k = 2 ^ 64 - 1 ->
  exists (fuel : nat) y,
    getNextNumber_loop skipPermutations base milestoneInc fuel i st
    = Some (y, set_nextNumber (wrap64 (y + 1)) (announce milestoneInc y st)) /\
    0 <= y < 2 ^ 64 /\
    (skipPermutations = false -> y = i) /\
    (skipPermutations = true ->
     areDigitsSorted base y = true /\
     ((i <= y /\ forall j, i <= j < y -> areDigitsSorted base j = false) \/
      (y = 0 /\ forall j, i <= j < 2 ^ 64 -> areDigitsSorted base j = false))).
Proof.
  revert i. induction k as [|k IH]; intros i Hi Hk.
  - destruct (negb skipPermutations || areDigitsSorted base i) eqn:E.
    + exists 1%nat, i. simpl. rewrite E. split; [reflexivity|]. split; [lia|].
      split; [reflexivity|]. intros ->. simpl in E. split; [exact E|].
      left. split; [lia|]. intros j Hj. lia.
    + exists 2%nat, 0. cbn [getNextNumber_loop]. rewrite E.
      replace (wrap64 (i + 1)) with 0 by (replace i with (2 ^ 64 - 1) by lia; reflexivity).
      change (areDigitsSorted base 0) with true. rewrite orb_true_r.
      split; [reflexivity|]. split; [lia|].
      destruct skipPermutations; [|discriminate E]. simpl in E.
      split; [discriminate|]. intros _. split; [reflexivity|].
      right. split; [reflexivity|]. intros j Hj. replace j with i by lia. exact E.
  - destruct (negb skipPermutations || areDigitsSorted base i) eqn:E.
    + exists 1%nat, i. simpl. rewrite E. split; [reflexivity|]. split; [lia|].
      split; [reflexivity|]. intros ->. simpl in E. split; [exact E|].
      left. split; [lia|]. intros j Hj. lia.
    + destruct (IH (i + 1) ltac:(lia) ltac:(lia))
        as (fuel & y & Hloop & Hy & Hns & Hsk).
      exists (S fuel), y. cbn [getNextNumber_loop]. rewrite E.
      rewrite wrap64_small by lia. split; [exact Hloop|]. split; [exact Hy|].
      destruct skipPermutations; [|discriminate E]. simpl in E.
      split; [discriminate|]. intros _.
      destruct (Hsk eq_refl) as [Hs [[Hle Hmin]|[H0 Hnone]]].
      * split; [exact Hs|]. left. split; [lia|]. intros j Hj.
        destruct (Z.eq_dec j i) as [->|]; [exact E|]. apply Hmin. lia.
      * split; [exact Hs|]. right. split; [exact H0|]. intros j Hj.
        destruct (Z.eq_dec j i) as [->|]; [exact E|]. apply Hnone. lia.
Qed.

Lemma reachable_nextNumber cacheResults skipPermutations base outputResults
    milestoneInc heap st :
  reachable cacheResults skipPermutations base outputResults milestoneInc heap st ->
  0 <= nextNumber st < 2 ^ 64.
Proof.
  unfold reachable. revert st.
  apply rtc_ind_r; [|intros s1 s2 _ [fuel n happy s s' H|fuel i s s' H] IH].
  - simpl. lia.
  - apply isHappy_frame in H as (-> & _). exact IH.
  - apply getNextNumber_loop_frame in H as (_ & -> & _). apply wrap64_range.
Qed.

(** X18: in every state the calculator can reach, a call of
    [getNextNumber] returns (the scan ends), with a 64-bit number.  Without
    skipping it returns [nextNumber]; with skipping it returns the least
    number from [nextNumber] up that passes [areDigitsSorted], or 0 when
    there is none below 2^64. *)
Theorem getNextNumber_total (cacheResults skipPermutations : bool) (base : Z)
    (outputResults : bool) (milestoneInc : option Z) (heap : nat -> list Z)
    (st : state) :
  reachable cacheResults skipPermutations base outputResults milestoneInc heap st ->
  exists (fuel : nat) i st',
    getNextNumber skipPermutations base milestoneInc fuel st = Some (i, st') /\
    0 <= i < 2 ^ 64 /\
    (skipPermutations = false -> i = nextNumber st) /\
    (skipPermutations = true ->
     areDigitsSorted base i = true /\
     ((nextNumber st <= i /\
       forall j, nextNumber st <= j < i -> areDigitsSorted base j = false) \/
      (i = 0 /\
       forall j, nextNumber st <= j < 2 ^ 64 -> areDigitsSorted base j = false))).
Proof.
  intros Hr. apply reachable_nextNumber in Hr.
  destruct (scan_total skipPermutations base milestoneInc
              (Z.to_nat (2 ^ 64 - 1 - nextNumber st)) (nextNumber st) st
              ltac:(lia) ltac:(lia))
    as (fuel & y & Hloop & Hy & Hns & Hsk).
  exists fuel, y. eexists. split; [exact Hloop|]. split; [exact Hy|].
  split; assumption.
Qed.

Lemma getNextNumber_total_witness :
  reachable true true 10 true None heap_zero (HnCalculator true) /\
  exists (fuel : nat) i st',
    getNextNumber true 10 None fuel (HnCalculator true) = Some (i, st') /\
    0 <= i < 2 ^ 64 /\
    (true = false -> i = nextNumber (HnCalculator true)) /\
    (true = true ->
     areDigitsSorted 10 i = true /\
     ((nextNumber (HnCalculator true) <= i /\
       forall j, nextNumber (HnCalculator true) <= j < i ->
                 areDigitsSorted 10 j = false) \/
      (i = 0 /\
       forall j, nextNumber (HnCalculator true) <= j < 2 ^ 64 ->
                 areDigitsSorted 10 j = false))).
Proof.
  assert (reachable true true 10 true None heap_zero (HnCalculator true)) as Hr
    by apply rtc_refl.
  split; [exact Hr|].
  exact (getNextNumber_total true true 10 true None heap_zero (HnCalculator true) Hr).
Defined.

(** ** Milestones in both modes *)

Lemma pull_milestones skipPermutations base M B (k : nat) :
  1 <= M -> B + M <= 2 ^ 64 ->
  forall fuel st l st',
    (exists q, 0 <= q /\ lastMilestone st = q * M /\
               out st = map (fun j => Milestone (j * M)) (seqZ 1 q) /\ q * M < B) ->
    pull skipPermutations base (Some M) fuel k st = Some (l, st') ->
    Forall (fun i => i < B) l ->
    exists q, 0 <= q /\ lastMilestone st' = q * M /\
              out st' = map (fun j => Milestone (j * M)) (seqZ 1 q) /\ q * M < B.
Proof.
  intros HM HB. induction k as [|k IH]; intros fuel st l st' Hinv Hpull Hl.
  - injection Hpull as <- <-. exact Hinv.
  - cbn [pull] in Hpull.
    destruct (getNextNumber _ _ _ fuel st) as [[i st1]|] eqn:E; [|discriminate].
    destruct (pull _ _ _ fuel k st1) as [[l' st2]|] eqn:E'; [|discriminate].
    injection Hpull as <- <-. apply Forall_cons in Hl as [Hi Hl].
    apply (IH fuel st1 l' st2); [|exact E'|exact Hl].
    destruct Hinv as (q & Hq & HL & Ho & HqB).
    apply getNextNumber_loop_out in E as [[Ho1 HL1]|(Ho1 & HL1 & Hlt)].
    + exists q. rewrite Ho1, HL1. auto.
    + assert (0 <= q * M) as Hqm by (apply Z.mul_nonneg_nonneg; lia).
      assert (0 <= q * M + M < 2 ^ 64) as Hsmall by (clear - Hqm HM HB HqB; lia).
      rewrite HL in HL1, Ho1. rewrite (wrap64_small _ Hsmall) in HL1, Ho1.
      exists (q + 1). split; [lia|]. split; [rewrite HL1; ring|].
      split; [|rewrite HL1 in Hlt; lia].
      rewrite Ho1, Ho. rewrite (seqZ_app 1 q 1), map_app by lia.
      rewrite (seqZ_cons (1 + q)), (seqZ_nil (Z.succ (1 + q))) by lia.
      simpl. f_equal. f_equal. f_equal. ring.
Qed.

(** X19: with a milestone interval [M] from 1 up, skipping or not, as long
    as every number handed out on a fresh calculator is below a bound [B]
    with [B + M <= 2^64], the milestone lines printed are exactly
    [M, 2M, ..., qM] for some [q], in this order and once each,
    [lastMilestone] is [qM], and [qM] is below [B]: no boundary is
    announced twice, out of order, or before the cursor has passed it. *)
Theorem milestones_in_order (cacheResults skipPermutations : bool) (base M B : Z)
    (fuel k : nat) (l : list Z) (st' : state) :
  1 <= M -> 1 <= B -> B + M <= 2 ^ 64 ->
  pull skipPermutations base (Some M) fuel k (HnCalculator cacheResults)
  = Some (l, st') ->
  Forall (fun i => i < B) l ->
  exists q, 0 <= q /\ lastMilestone st' = q * M /\
            out st' = map (fun j => Milestone (j * M)) (seqZ 1 q) /\ q * M < B.
Proof.
  intros HM HB1 HB Hpull Hl.
  apply (pull_milestones skipPermutations base M B k HM HB fuel
           (HnCalculator cacheResults) l st'); [|exact Hpull|exact Hl].
  exists 0. simpl. repeat split; lia.
Qed.

Lemma milestones_in_order_witness :
  exists l st',
    1 <= 10 /\ 1 <= 200 /\ 200 + 10 <= 2 ^ 64 /\
    pull true 10 (Some 10) 20 30 (HnCalculator true) = Some (l, st') /\
    Forall (fun i => i < 200) l /\
    exists q, 0 <= q /\ lastMilestone st' = q * 10 /\
              out st' = map (fun j => Milestone (j * 10)) (seqZ 1 q) /\ q * 10 < 200.
Proof.
  destruct (pull true 10 (Some 10) 20 30 (HnCalculator true))
    as [[l st']|] eqn:E; [|vm_compute in E; discriminate E].
  assert (Forall (fun i => i < 200) l) as Hl.
  { vm_compute in E. injection E as <- _. repeat constructor. }
  exists l, st'. split; [lia|]. split; [lia|]. split; [lia|].
  split; [reflexivity|]. split; [exact Hl|].
  apply (milestones_in_order true true 10 10 200 20 30 l st'); [lia|lia|lia|exact E|exact Hl].
Defined.

(** ** A worker that skips permutations *)

Lemma threadLoop_from_more_fuel cacheResults skipPermutations base stopAt
    outputResults milestoneInc heap (f1 f2 : nat) n st r :
  (f1 <= f2)%nat ->
  threadLoop_from cacheResults skipPermutations base stopAt outputResults
    milestoneInc heap f1 n st = Some r ->
  threadLoop_from cacheResults skipPermutations base stopAt outputResults
    milestoneInc heap f2 n st = Some r.
Proof.
  revert f2 n st r. induction f1 as [|f1 IH]; intros f2 n st r Hle H; [discriminate|].
  destruct f2 as [|f2]; [lia|]. cbn [threadLoop_from] in *.
  destruct (n <? stopAt); [|exact H]. unfold getNextNumber in *.
  destruct (getNextNumber_loop _ _ _ f1 _ st) as [[n' st1]|] eqn:E1; [|discriminate].
  rewrite (getNextNumber_loop_more_fuel _ _ _ f1 f2 _ _ _ ltac:(lia) E1).
  destruct (isHappy _ _ _ _ _ f1 n' st1) as [[h st2]|] eqn:E2; [|discriminate].
  rewrite (isHappy_more_fuel _ _ _ _ _ f1 f2 _ _ _ ltac:(lia) E2).
  destruct (threadLoop_from _ _ _ _ _ _ _ f1 n' st2) as [[called st3]|] eqn:E3;
    [|discriminate].
  rewrite (IH f2 _ _ _ ltac:(lia) E3). exact H.
Qed.

(** One iteration of the loop, from its parts. *)
Lemma threadLoop_from_step cacheResults skipPermutations base stopAt
    outputResults milestoneInc heap (fg fh ft : nat) n st n' st1 happy st2 called
    st3 :
  n < stopAt ->
  getNextNumber skipPermutations base milestoneInc fg st = Some (n', st1) ->
  isHappy cacheResults skipPermutations base outputResults heap fh n' st1
  = Some (happy, st2) ->
  threadLoop_from cacheResults skipPermutations base stopAt outputResults
    milestoneInc heap ft n' st2 = Some (called, st3) ->
  threadLoop_from cacheResults skipPermutations base stopAt outputResults
    milestoneInc heap (S (Nat.max fg (Nat.max fh ft))) n st
  = Some (n' :: called, st3).
Proof.
  intros Hn Hg Hh Ht. cbn [threadLoop_from].
  destruct (Z.ltb_spec n stopAt); [|lia]. unfold getNextNumber in *.
  set (f := Nat.max fg (Nat.max fh ft)).
  rewrite (getNextNumber_loop_more_fuel _ _ _ fg f _ _ _ ltac:(lia) Hg).
  rewrite (isHappy_more_fuel _ _ _ _ _ fh f _ _ _ ltac:(lia) Hh).
  rewrite (threadLoop_from_more_fuel _ _ _ _ _ _ _ ft f _ _ _ ltac:(lia) Ht).
  reflexivity.
Qed.

Lemma threadLoop_skip_run cacheResults outputResults milestoneInc heap stopAt x
    (d : nat) c :
  zeroed 10 heap ->
  stopAt <= x -> x < 2 ^ 64 -> areDigitsSorted 10 x = true ->
  1 <= c -> stopAt = c + Z.of_nat d ->
  forall n st, n < stopAt -> nextNumber st = c ->
  exists (fuel : nat) y st',
    threadLoop_from cacheResults true 10 stopAt outputResults milestoneInc heap fuel n st
    = Some (filter (fun i => areDigitsSorted 10 i = true) (seqZ c (stopAt - c)) ++ [y],
            st') /\
    stopAt <= y <= x /\ areDigitsSorted 10 y = true /\
    (forall j, stopAt <= j < y -> areDigitsSorted 10 j = false).
Proof.
  intros Hz Hsx Hx Hs. revert c.
  induction d as [|d IH]; intros c Hc Hd n st Hn Hnext.
  - replace c with stopAt in * by lia.
    destruct (scan_finds 10 milestoneInc (Z.to_nat (x - stopAt)) stopAt x)
      as (fg & y & Hy & Hsy & Hmin & Hloop); try lia; [exact Hs|].
    destruct (classify10_total y ltac:(lia)) as [b Hb]. specialize (Hb true).
    destruct (isHappy_returns cacheResults true 10 outputResults heap
                (fun _ => Hz) 17 y b
                (set_nextNumber (wrap64 (y + 1)) (announce milestoneInc y st)) Hb)
      as (happy & st2 & Hh).
    eexists. exists y, st2.
    split; [|split; [lia|]; split; [exact Hsy|exact Hmin]].
    rewrite Z.sub_diag, seqZ_nil by lia. cbn [filter app].
    eapply (threadLoop_from_step _ _ _ _ _ _ _ fg 17 1).
    + exact Hn.
    + unfold getNextNumber. rewrite Hnext. apply Hloop.
    + exact Hh.
    + cbn [threadLoop_from]. destruct (Z.ltb_spec y stopAt); [lia|]. reflexivity.
  - rewrite seqZ_cons by lia.
    replace (Z.succ c) with (c + 1) by lia.
    replace (Z.pred (stopAt - c)) with (stopAt - (c + 1)) by lia.
    destruct (areDigitsSorted 10 c) eqn:Ec.
    + rewrite filter_cons_True by exact Ec.
      set (st1 := set_nextNumber (wrap64 (c + 1)) (announce milestoneInc c st)).
      destruct (classify10_total c ltac:(lia)) as [b Hb]. specialize (Hb true).
      destruct (isHappy_returns cacheResults true 10 outputResults heap
                  (fun _ => Hz) 17 c b st1 Hb)
        as (happy & st2 & Hh).
      destruct (IH (c + 1) ltac:(lia) ltac:(lia) c st2 ltac:(lia))
        as (ft & y & st' & Hrun & Hy & Hsy & Hmin).
      { apply isHappy_frame in Hh as (-> & _). unfold st1. simpl.
        apply wrap64_small. lia. }
      eexists. exists y, st'.
      split; [|split; [lia|]; split; [exact Hsy|exact Hmin]].
      eapply (threadLoop_from_step cacheResults true 10 stopAt outputResults
                milestoneInc heap 1 17 ft n st c st1 happy st2);
        [exact Hn| |exact Hh|exact Hrun].
      unfold getNextNumber. rewrite Hnext. cbn [getNextNumber_loop].
      rewrite Ec. reflexivity.
    + rewrite filter_cons_False by (rewrite Ec; discriminate).
      destruct (IH (c + 1) ltac:(lia) ltac:(lia) n (set_nextNumber (c + 1) st) Hn eq_refl)
        as (ft & y & st' & Hrun & Hy & Hsy & Hmin).
      destruct ft as [|ft]; [discriminate Hrun|].
      cbn [threadLoop_from] in Hrun.
      destruct (Z.ltb_spec n stopAt); [|lia].
      unfold getNextNumber in Hrun. simpl nextNumber in Hrun.
      rewrite getNextNumber_loop_from in Hrun.
      destruct (getNextNumber_loop true 10 milestoneInc ft (c + 1) st)
        as [[n' s1]|] eqn:E1; [|discriminate].
      destruct (isHappy cacheResults true 10 outputResults heap ft n' s1)
        as [[h s2]|] eqn:E2; [|discriminate].
      destruct (threadLoop_from cacheResults true 10 stopAt outputResults
                  milestoneInc heap ft n' s2) as [[called s3]|] eqn:E3; [|discriminate].
      eexists. exists y, st'.
      split; [|split; [lia|]; split; [exact Hsy|exact Hmin]].
      rewrite <- Hrun.
      eapply (threadLoop_from_step cacheResults true 10 stopAt outputResults
                milestoneInc heap (S ft) ft ft n st n' s1 h s2);
        [exact Hn| |exact E2|exact E3].
      unfold getNextNumber. rewrite Hnext. cbn [getNextNumber_loop].
      rewrite Ec. cbn [negb orb]. rewrite wrap64_small by lia. exact E1.
Qed.

(** X20: in base 10 with permutations skipped, when every array
    [sortDigits] is given is zero-filled, a single worker on a fresh
    calculator whose [stopAt] is at least 1 and at most some 64-bit number
    with sorted digits comes to an end, having classified exactly the
    numbers below [stopAt] that pass [areDigitsSorted], in increasing
    order, and then the least such number from [stopAt] up.  The program's
    [main] is the instance [stopAt = 2000000000], which then ends with
    2222222222. *)
Theorem threadLoop_skip (cacheResults outputResults : bool)
    (milestoneInc : option Z) (heap : nat -> list Z) (stopAt x : Z) :
  zeroed 10 heap ->
  1 <= stopAt <= x -> x < 2 ^ 64 -> areDigitsSorted 10 x = true ->
  exists (fuel : nat) y st',
    threadLoop cacheResults true 10 stopAt outputResults milestoneInc heap fuel
      (HnCalculator cacheResults)
    = Some (filter (fun i => areDigitsSorted 10 i = true) (seqZ 1 (stopAt - 1)) ++ [y],
            st') /\
    stopAt <= y <= x /\ areDigitsSorted 10 y = true /\
    (forall j, stopAt <= j < y -> areDigitsSorted 10 j = false).
Proof.
  intros Hz Hs Hx Hsx.
  apply (threadLoop_skip_run cacheResults outputResults milestoneInc heap stopAt x
           (Z.to_nat (stopAt - 1)) 1); try lia; [exact Hz|exact Hsx|reflexivity].
Qed.

Lemma threadLoop_skip_witness :
  zeroed 10 heap_zero /\
  1 <= 2000000000 <= 2222222222 /\ 2222222222 < 2 ^ 64 /\
  areDigitsSorted 10 2222222222 = true /\
  exists (fuel : nat) y st',
    threadLoop true true 10 2000000000 false (Some 10000000) heap_zero fuel
      (HnCalculator true)
    = Some (filter (fun i => areDigitsSorted 10 i = true)
              (seqZ 1 (2000000000 - 1)) ++ [y], st') /\
    2000000000 <= y <= 2222222222 /\ areDigitsSorted 10 y = true /\
    (forall j, 2000000000 <= j < y -> areDigitsSorted 10 j = false).
Proof.
  assert (zeroed 10 heap_zero) as Hz by (intros k; reflexivity).
  split; [exact Hz|]. split; [lia|]. split; [lia|]. split; [reflexivity|].
  apply (threadLoop_skip true false (Some 10000000) heap_zero 2000000000 2222222222);
    [exact Hz|lia|lia|reflexivity].
Defined.

(** ** Creating the workers *)

Lemma startThreads_loop_count (numThreads : Z) (attachToLast : bool) (k : nat)
    (i : Z) :
  0 <= i -> numThreads < 2 ^ 16 ->
  k = Z.to_nat (numThreads - (if attachToLast then 1 else 0) - i) ->
  startThreads_loop (S k) numThreads attachToLast i = Some k.
Proof.
  revert i. induction k as [|k IH]; intros i Hi Hn Hk.
  - simpl. destruct (Z.ltb_spec i (numThreads - (if attachToLast then 1 else 0)));
      [lia|reflexivity].
  - remember (S k) as f eqn:Hf. cbn [startThreads_loop].
    destruct (Z.ltb_spec i (numThreads - (if attachToLast then 1 else 0))); [|lia].
    assert (wrap16 (i + 1) = i + 1) as ->.
    { unfold wrap16. apply Z.mod_small. destruct attachToLast; lia. }
    subst f. rewrite IH by lia. reflexivity.
Qed.

(** X21: for a 16-bit [numThreads], [startThreads] creates
    [numThreads - attachToLast] detached threads, none when that is
    negative, and then runs [threadLoop] on the calling thread exactly when
    [attachToLast] is set.  So [startThreads(0, true)] still runs one
    worker, and [startThreads(1, true)], the call [main] makes, runs the
    only worker on the calling thread. *)
Theorem startThreads_workers (numThreads : Z) (attachToLast : bool) :
  0 <= numThreads < 2 ^ 16 ->
  startThreads (S (Z.to_nat (numThreads - (if attachToLast then 1 else 0))))
    numThreads attachToLast
  = Some (Z.to_nat (numThreads - (if attachToLast then 1 else 0)), attachToLast).
Proof.
  intros Hn. unfold startThreads.
  rewrite (startThreads_loop_count numThreads attachToLast
             (Z.to_nat (numThreads - (if attachToLast then 1 else 0))) 0);
    [reflexivity|lia|lia|f_equal; lia].
Qed.

Lemma startThreads_workers_witness :
  0 <= 0 < 2 ^ 16 /\
  startThreads (S (Z.to_nat (0 - 1))) 0 true = Some (Z.to_nat (0 - 1), true).
Proof.
  split; [lia|]. apply (startThreads_workers 0 true). lia.
Defined.

(** ** No number is reported twice *)

Lemma resultKeys_app l1 l2 : resultKeys (l1 ++ l2) = resultKeys l1 ++ resultKeys l2.
Proof.
  induction l1 as [|[k b|m] l1 IH]; simpl; [reflexivity| |exact IH].
  rewrite IH. reflexivity.
Qed.

Lemma resultKeys_In k l : In k (resultKeys l) -> exists b, In (Result k b) l.
Proof.
  induction l as [|[k' b|m] l IH]; simpl; [intros []| |].
  - intros [->|Hin]; [eauto|]. destruct (IH Hin) as [b' Hb]. eauto.
  - intros Hin. destruct (IH Hin) as [b' Hb]. eauto.
Qed.

Section Reports.

Variable skipPermutations : bool.
Variable base : Z.
Variable outputResults : bool.
Variable milestoneInc : option Z.
Variable heap : nat -> list Z.

Hypothesis ideal : skipPermutations = true -> zeroed base heap.

Local Abbreviation isHappy' :=
  (isHappy true skipPermutations base outputResults heap).
Local Abbreviation childNumber' := (childNumber skipPermutations base heap).

Lemma same_object_refl st : same_object st st.
Proof. repeat split. Qed.

Lemma same_object_trans st1 st2 st3 :
  same_object st1 st2 -> same_object st2 st3 -> same_object st1 st3.
Proof.
  intros (H1 & H2 & H3 & H4) (G1 & G2 & G3 & G4).
  repeat split; congruence.
Qed.

Lemma same_object_sym st1 st2 : same_object st1 st2 -> same_object st2 st1.
Proof. intros (H1 & H2 & H3 & H4). repeat split; congruence. Qed.

Lemma childNumber_same_object n st : same_object st (snd (childNumber' n st)).
Proof.
  unfold same_object.
  rewrite childNumber_cache, childNumber_nextNumber, childNumber_lastMilestone,
    childNumber_out.
  repeat split.
Qed.

Lemma newResult_same_object n happy st1 st2 :
  same_object st1 st2 ->
  same_object (newResult true outputResults n happy st1)
    (newResult true outputResults n happy st2).
Proof.
  intros (H1 & H2 & H3 & H4). unfold same_object, newResult.
  destruct outputResults; simpl; rewrite ?H1, ?H2, ?H3, ?H4; repeat split.
Qed.

Lemma isCached_same_object n st1 st2 :
  same_object st1 st2 -> isCached true n st1 = isCached true n st2.
Proof. intros (H1 & _). unfold isCached. rewrite H1. reflexivity. Qed.

(** When the counters start from 0, a call does not depend on how many
    arrays have been allocated. *)
Lemma isHappy_same_object (fuel : nat) n st1 st2 happy st1' :
  same_object st1 st2 ->
  isHappy' fuel n st1 = Some (happy, st1') ->
  exists st2', isHappy' fuel n st2 = Some (happy, st2') /\ same_object st1' st2'.
Proof.
  revert n st1 st2 happy st1'.
  induction fuel as [|fuel IH]; intros n st1 st2 happy st1' Hs H; [discriminate|].
  pose proof (isCached_same_object n _ _ Hs) as Hc.
  apply isHappy_cases in H
    as [(C & -> & ->)|[(C & -> & -> & ->)|[(C & -> & -> & ->)|(C & H1 & H4 & st0 & H & ->)]]].
  - exists st2. split; [|exact Hs]. simpl. rewrite <- Hc, C.
    destruct Hs as (-> & _). reflexivity.
  - exists st2. split; [|exact Hs]. simpl. rewrite <- Hc, C. reflexivity.
  - exists st2. split; [|exact Hs]. simpl. rewrite <- Hc, C. reflexivity.
  - rewrite (childNumber_ideal _ _ _ ideal) in H.
    assert (same_object (snd (childNumber' n st1)) (snd (childNumber' n st2))) as Hs'.
    { eapply same_object_trans; [apply same_object_sym, childNumber_same_object|].
      eapply same_object_trans; [exact Hs|apply childNumber_same_object]. }
    destruct (IH _ _ _ _ _ Hs' H) as (st0' & H' & Hs0).
    exists (newResult true outputResults n happy st0').
    split; [|apply newResult_same_object; exact Hs0].
    rewrite isHappy_miss; [|rewrite <- Hc; exact C|exact H1|exact H4].
    rewrite (childNumber_ideal _ _ _ ideal), H'. reflexivity.
Qed.

(** A key that a call adds to the cache is a number the recursion went
    through. *)
Lemma isHappy_added_visited (fuel : nat) c st happy st1 k :
  isHappy' fuel c st = Some (happy, st1) ->
  cache st !! k = None -> is_Some (cache st1 !! k) ->
  exists (f' : nat) r st_k,
    (f' <= fuel)%nat /\ same_object st st_k /\ isHappy' f' k st_k = Some r /\
    k <> 1 /\ k <> 4.
Proof.
  revert c st happy st1.
  induction fuel as [|fuel IH]; intros c st happy st1 H Hk Hk1; [discriminate|].
  pose proof H as H'.
  apply isHappy_cases in H
    as [(_ & _ & ->)|[(_ & _ & _ & ->)|[(_ & _ & _ & ->)|(C & H1 & H4 & st0 & H & ->)]]];
    try (rewrite Hk in Hk1; destruct Hk1 as [? Hk1]; discriminate Hk1).
  rewrite cache_newResult, emplace_lookup in Hk1.
  destruct (cache st0 !! k) as [w|] eqn:E.
  - destruct (IH _ _ _ _ H ltac:(rewrite childNumber_cache; exact Hk)
                ltac:(rewrite E; eauto))
      as (f' & r & st_k & Hle & Hs & Hr & Hrest).
    exists f', r, st_k. split; [lia|].
    split; [eapply same_object_trans; [apply childNumber_same_object|exact Hs]|].
    split; [exact Hr|exact Hrest].
  - destruct (decide (c = k)) as [<-|]; [|destruct Hk1 as [? Hk1]; discriminate Hk1].
    exists (S fuel), (happy, newResult true outputResults c happy st0), st.
    split; [lia|]. split; [apply same_object_refl|].
    split; [exact H'|]. split; assumption.
Qed.

(** The recursion below [n] does not come back to [n]. *)
Lemma isHappy_no_revisit (fuel : nat) n st st_a happy st0 :
  same_object st st_a ->
  isCached true n st = false -> n <> 1 -> n <> 4 ->
  isHappy' fuel (childOf skipPermutations base n) st_a = Some (happy, st0) ->
  cache st0 !! n = None.
Proof.
  intros Hs C H1 H4. revert st_a Hs happy st0.
  induction fuel as [fuel IH] using lt_wf_ind. intros st_a Hs happy st0 H.
  destruct (cache st0 !! n) as [w|] eqn:E; [|reflexivity]. exfalso.
  pose proof (isCached_false true n st C eq_refl) as Hnone.
  assert (cache st_a !! n = None) as Hnone_a
    by (destruct Hs as (<- & _); exact Hnone).
  destruct (isHappy_added_visited _ _ _ _ _ _ H Hnone_a ltac:(rewrite E; eauto))
    as (f' & [r s'] & st_k & Hle & Hsk & Hr & _).
  assert (same_object st st_k) as Hs_k
    by (eapply same_object_trans; eassumption).
  destruct f' as [|f'']; [discriminate Hr|].
  apply isHappy_cases in Hr
    as [(C' & _)|[(_ & -> & _)|[(_ & -> & _)|(_ & _ & _ & s0 & Hr & _)]]];
    try congruence.
  { rewrite <- (isCached_same_object n _ _ Hs_k) in C'. congruence. }
  rewrite (childNumber_ideal _ _ _ ideal) in Hr.
  assert (same_object st (snd (childNumber' n st_k))) as Hs_b
    by (eapply same_object_trans; [exact Hs_k|apply childNumber_same_object]).
  pose proof (IH f'' ltac:(lia) _ Hs_b _ _ Hr) as Hn.
  apply (isHappy_more_fuel _ _ _ _ _ f'' fuel) in Hr; [|lia].
  assert (same_object (snd (childNumber' n st_k)) st_a) as Hba
    by (eapply same_object_trans; [apply same_object_sym; exact Hs_b|exact Hs]).
  destruct (isHappy_same_object _ _ _ _ _ _ Hba Hr) as (st0' & Hr' & (Hc0 & _)).
  rewrite H in Hr'. injection Hr' as _ <-. congruence.
Qed.

Lemma isHappy_reports_once (fuel : nat) n st happy st' :
  lines_cached st -> NoDup (resultKeys (out st)) ->
  isHappy' fuel n st = Some (happy, st') ->
  NoDup (resultKeys (out st')).
Proof.
  revert n st happy st'.
  induction fuel as [|fuel IH]; intros n st happy st' Hl Hnd H; [discriminate|].
  apply isHappy_cases in H
    as [(_ & _ & ->)|[(_ & _ & _ & ->)|[(_ & _ & _ & ->)|(C & H1 & H4 & st0 & H & ->)]]];
    try exact Hnd.
  assert (lines_cached (snd (childNumber' n st))) as Hl'
    by (unfold lines_cached; rewrite childNumber_out, childNumber_cache; exact Hl).
  assert (NoDup (resultKeys (out (snd (childNumber' n st))))) as Hnd'
    by (rewrite childNumber_out; exact Hnd).
  pose proof (isHappy_lines_cached _ _ _ _ _ _ _ _ _ _ eq_refl Hl' H) as Hl0.
  specialize (IH _ _ _ _ Hl' Hnd' H).
  rewrite (childNumber_ideal _ _ _ ideal) in H.
  pose proof (isHappy_no_revisit _ _ _ _ _ _ (childNumber_same_object n st)
                C H1 H4 H) as Hn.
  rewrite out_newResult. destruct outputResults; [|exact IH].
  rewrite resultKeys_app. simpl. apply NoDup_app. split; [exact IH|].
  split; [|repeat constructor; apply not_elem_of_nil].
  intros k Hk Hk'. apply list_elem_of_singleton in Hk' as ->.
  apply list_elem_of_In, resultKeys_In in Hk as [b Hb].
  apply Hl0 in Hb. congruence.
Qed.

Lemma reachable_reports_once st :
  reachable true skipPermutations base outputResults milestoneInc heap st ->
  NoDup (resultKeys (out st)).
Proof.
  intros Hr.
  assert (forall s,
            rtc (step true skipPermutations base outputResults milestoneInc heap)
              (HnCalculator true) s ->
            lines_cached s /\ NoDup (resultKeys (out s))) as Hall.
  { apply rtc_ind_r;
      [|intros s1 s2 _ [fuel n happy s s' H|fuel i s s' H] (Hl & Hnd)].
    - split; [intros k b []|constructor].
    - split; [eapply isHappy_lines_cached; eauto|].
      eapply isHappy_reports_once; eassumption.
    - pose proof (getNextNumber_loop_frame _ _ _ _ _ _ _ _ H) as (Hc & _ & Ho).
      split.
      + intros k b Hin. rewrite Hc. apply Hl.
        eapply getNextNumber_loop_lines; eassumption.
      + destruct Ho as [->|[m ->]]; [exact Hnd|].
        rewrite resultKeys_app. simpl. rewrite app_nil_r. exact Hnd. }
  apply Hall. exact Hr.
Qed.

End Reports.

(** X22: with caching enabled, when permutations are not skipped, or every
    array [sortDigits] is given is zero-filled, then in every state a
    calculator used by one thread can reach, the result lines printed so
    far name pairwise different numbers: no number is reported twice. *)
Theorem results_reported_once (skipPermutations : bool) (base : Z)
    (outputResults : bool) (milestoneInc : option Z) (heap : nat -> list Z)
    (st : state) :
  (skipPermutations = true -> zeroed base heap) ->
  reachable true skipPermutations base outputResults milestoneInc heap st ->
  NoDup (resultKeys (out st)).
Proof. intros Hz. apply reachable_reports_once. exact Hz. Qed.

Lemma results_reported_once_witness :
  exists happy st,
    (true = true -> zeroed 10 heap_zero) /\
    isHappy true true 10 true heap_zero 17 19 (HnCalculator true) = Some (happy, st) /\
    reachable true true 10 true None heap_zero st /\
    NoDup (resultKeys (out st)).
Proof.
  destruct (isHappy true true 10 true heap_zero 17 19 (HnCalculator true))
    as [[happy st]|] eqn:E; [|vm_compute in E; discriminate E].
  assert (reachable true true 10 true None heap_zero st) as Hr
    by (eapply rtc_once, step_isHappy; exact E).
  assert (true = true -> zeroed 10 heap_zero) as Hz
    by (intros _ j; reflexivity).
  exists happy, st. split; [exact Hz|]. split; [reflexivity|]. split; [exact Hr|].
  exact (results_reported_once true 10 true None heap_zero st Hz Hr).
Defined.
